(** * ReactiveVector: a std::vector wrapper that emits a signal on every
      modification (reactive_vector.hpp).

    The development has three layers, following the header:
    - [StdVector]: the storage, [std::vector<T>], as the C++ standard
      describes it: a sequence of elements together with a capacity;
    - the signals of [VectorSignals<T>] and the signal emitter;
    - the member functions of [ReactiveVector<T>], written in a small state
      and exception monad over the object, in the statement order of the
      source.

    Modelling choices.
    - [size_type] is [nat].  The only arithmetic the header does on it is
      [vec_.size() - 1], at places where the size is at least 1 (after an
      append, and behind the [empty()] guard of [pop_back]), so the unsigned
      subtraction does not wrap there.
    - [reserve] and [resize] check their argument against [max_size()] and
      throw [std::length_error]; that check is modelled.  Running out of
      storage ([std::bad_alloc]) is not: a vector of [max_size()] elements
      cannot be built without it, so [push_back] has no such failure here,
      and the constructors are given as the objects they build.
    - [push_back(const T&)] uses its parameter again after the storage may
      have moved, so the parameter is modelled as a reference: to an object
      outside the vector or to one of its elements.  The other reference
      parameters and the other reference members of the signals are read
      while what they refer to is alive, and are modelled by the value. *)

From stdpp Require Import base list.

(** ** The storage: [std::vector<T>] *)

Module StdVector.

(** What the standard leaves to the implementation: which capacity a
    reallocation picks.  The standard only promises that the capacity that
    results is large enough for the request. *)
Class Allocation : Type := {
  (** capacity of a vector constructed with [n] elements *)
  construct_cap : nat -> nat;
  construct_cap_ge : forall n, n <= construct_cap n;
  (** capacity after an insertion outgrew capacity [c]: the vector held
      [sz] elements and must now hold [n] *)
  grow_cap : forall (c sz n : nat), nat;
  grow_cap_ge : forall c sz n, c < n -> n <= grow_cap c sz n;
  (** capacity after [reserve(n)] with [n] above the capacity [c] *)
  reserve_cap : forall (c n : nat), nat;
  reserve_cap_ge : forall c n, c < n -> n <= reserve_cap c n;
  (** [max_size()], the largest number of elements a request may name *)
  max_size : N
}.

(** The policy of libstdc++: exact fit on construction and on [reserve],
    at least doubling of the size on growth; [max_size()] is [PTRDIFF_MAX]
    over the element size, here for elements of 8 bytes. *)
Definition libstdcxx_grow (c sz n : nat) : nat := sz + Nat.max sz (n - sz).

#[export] Instance libstdcxx : Allocation.
Proof.
  refine {| construct_cap n := n;
            grow_cap := libstdcxx_grow;
            reserve_cap c n := n;
            max_size := ((2 ^ 63 - 1) / 8)%N |};
    unfold libstdcxx_grow; intros; lia.
Defined.

(** [n > max_size()] *)
Definition exceeds_max_size `{Allocation} (n : nat) : bool :=
  (max_size <? N.of_nat n)%N.

(** [SIZE_MAX] on a 64-bit platform, the largest argument a [size_type]
    parameter can receive. *)
Definition SIZE_MAX : nat := N.to_nat (2 ^ 64 - 1).

(** What a member function with a precondition or a bounds check gives. *)
Inductive exception : Set := out_of_range | length_error.

Inductive result (A : Type) : Type :=
| Ok (a : A)              (* normal return *)
| Exn (e : exception)     (* an exception leaves the function *)
| UB.                     (* undefined behaviour: precondition violated *)
Arguments Ok {A} a.
Arguments Exn {A} e.
Arguments UB {A}.

(** An iterator is the offset of its position from [begin()]. *)
Abbreviation iterator := nat (only parsing).

Section Vector.
Context {T : Type} `{Allocation}.

Record vector_type : Type := Vec { elems : list T; cap : nat }.

(** Where a [const T&] argument refers to: an object that is not an
    element of the vector, or the element [v[i]] of the vector itself. *)
Inductive cref : Type :=
| Outside (x : T)
| Element (i : nat).

(** What a reference gives when it is read: the value of the object it
    refers to, or nothing defined when that object is gone. *)
Inductive referent : Type :=
| Valid (x : T)
| Dangling.

Definition size (v : vector_type) : nat := length (elems v).
Definition capacity (v : vector_type) : nat := cap v.
Definition empty (v : vector_type) : bool := Nat.eqb (size v) 0.

(** The storage invariant: the elements fit the capacity. *)
Definition fits (v : vector_type) : Prop := size v <= capacity v.

Definition vec_default : vector_type := Vec [] (construct_cap 0).
Definition vec_fill (n : nat) (value : T) : vector_type :=
  Vec (replicate n value) (construct_cap n).
Definition vec_init (init : list T) : vector_type :=
  Vec init (construct_cap (length init)).

(** [v[i]]: no bounds check. *)
Definition subscript (i : nat) (v : vector_type) : result T :=
  match elems v !! i with Some x => Ok x | None => UB end.

(** [v.at(i)]: the bounds check first, then the subscript. *)
Definition at_ (i : nat) (v : vector_type) : result T :=
  if size v <=? i then Exn out_of_range else subscript i v.

(** [v[i] = x] *)
Definition assign (i : nat) (x : T) (v : vector_type) : result vector_type :=
  if i <? size v then Ok (Vec (<[i:=x]> (elems v)) (cap v)) else UB.

Definition back (v : vector_type) : result T :=
  match last (elems v) with Some x => Ok x | None => UB end.

Definition vec_begin (v : vector_type) : iterator := 0.
Definition vec_end (v : vector_type) : iterator := size v.
Definition distance (first last : iterator) : nat := last - first.

(** [*pos] *)
Definition deref (pos : iterator) (v : vector_type) : result T :=
  subscript pos v.

(** Reading through a reference argument. *)
Definition load (r : cref) (v : vector_type) : result T :=
  match r with
  | Outside x => Ok x
  | Element i => subscript i v
  end.

Definition vec_push_back (value : T) (v : vector_type) : vector_type :=
  Vec (elems v ++ [value])
      (if size v <? cap v then cap v
       else grow_cap (cap v) (size v) (S (size v))).

(** [push_back] moves the elements to new storage when there is no room
    left, and then every reference to an element is invalidated. *)
Definition push_back_reallocates (v : vector_type) : bool :=
  negb (size v <? cap v).

(** [v.push_back(value)] with the argument passed by reference.  The
    element appended is a copy of what [value] refers to, also when that
    is an element of [v].  The result tells, besides the vector, what
    [value] refers to afterwards. *)
Definition vec_push_back_cref (value : cref) (v : vector_type)
    : result (referent * vector_type) :=
  match load value v with
  | Ok x =>
      Ok (match value with
          | Outside _ => Valid x
          | Element _ => if push_back_reallocates v then Dangling else Valid x
          end,
          vec_push_back x v)
  | Exn e => Exn e
  | UB => UB
  end.

Definition vec_emplace_back {Args : Type} (construct : Args -> T)
    (args : Args) (v : vector_type) : vector_type :=
  vec_push_back (construct args) v.

Definition vec_pop_back (v : vector_type) : result vector_type :=
  if empty v then UB else Ok (Vec (removelast (elems v)) (cap v)).

Definition vec_clear (v : vector_type) : vector_type := Vec [] (cap v).

(** The storage after a [reserve] that passed its check. *)
Definition reserve_storage (new_cap : nat) (v : vector_type) : vector_type :=
  if cap v <? new_cap then Vec (elems v) (reserve_cap (cap v) new_cap)
  else v.

(** [v.reserve(new_cap)]: throws when [new_cap > max_size()], before it
    touches the vector. *)
Definition vec_reserve (new_cap : nat) (v : vector_type)
    : result vector_type :=
  if exceeds_max_size new_cap then Exn length_error
  else Ok (reserve_storage new_cap v).

(** The storage after a [resize] that passed its check. *)
Definition resize_storage (new_size : nat) (value : T) (v : vector_type)
    : vector_type :=
  if size v <? new_size then
    Vec (elems v ++ replicate (new_size - size v) value)
        (if new_size <=? cap v then cap v
         else grow_cap (cap v) (size v) new_size)
  else if new_size <? size v then Vec (take new_size (elems v)) (cap v)
  else v.

(** [v.resize(new_size, value)]: growing beyond [max_size()] throws,
    before it touches the vector; shrinking has no check. *)
Definition vec_resize (new_size : nat) (value : T) (v : vector_type)
    : result vector_type :=
  if (size v <? new_size) && exceeds_max_size new_size then Exn length_error
  else Ok (resize_storage new_size value v).

(** [v.erase(pos)]: [pos] must be dereferenceable; the result is the
    iterator following the removed element. *)
Definition vec_erase (pos : iterator) (v : vector_type)
    : result (iterator * vector_type) :=
  if pos <? size v then Ok (pos, Vec (delete pos (elems v)) (cap v))
  else UB.
End Vector.

Arguments vector_type T : clear implicits.
Arguments cref T : clear implicits.
Arguments referent T : clear implicits.

End StdVector.

Import StdVector.

(** ** Signals for vector modification events: [VectorSignals<T>] *)

Section ReactiveVector.
Context {T : Type} `{Allocation}.

(** A signal as its observers receive it: a reference member is given by
    the value read through it.  [InsertedDangling] is [Inserted] delivered
    with a [value] reference that refers to no object any more, so that
    there is nothing defined to read. *)
Inductive Signal : Type :=
| Inserted (index : nat) (value : T)
| InsertedDangling (index : nat)
| Updated (index : nat) (old_value new_value : T)
| Erased (index : nat) (old_value : T)
| Cleared
| Reserved (new_capacity : nat)
| Resized (old_size new_size : nat).

(** Modelled from the spec: [SignalEmitter], declared in
    sbpt_generated_includes.hpp, which is not part of the header.  The
    spec describes it as an event bus whose [emit] synchronously delivers
    the event before the emitting call returns; it is modelled as a
    recording bus, the list of the signals emitted so far, oldest
    first. *)
Definition SignalEmitter : Type := list Signal.

Definition emitter_emit (sig : Signal) (e : SignalEmitter) : SignalEmitter :=
  e ++ [sig].

(** ** The object *)

Record ReactiveVector : Type := RV {
  signal_emitter : SignalEmitter;
  vec_ : vector_type T
}.

(** ** Member functions run in a state and exception monad *)

(** How a call on the object ends.  After an exception the object is
    still there; after undefined behaviour nothing is known. *)
Inductive outcome (A : Type) : Type :=
| Return (a : A) (s : ReactiveVector)
| Throw (e : exception) (s : ReactiveVector)
| Undefined.
Arguments Return {A} a s.
Arguments Throw {A} e s.
Arguments Undefined {A}.

Definition M (A : Type) : Type := ReactiveVector -> outcome A.

#[local] Instance M_ret : MRet M := fun A a s => Return a s.
#[local] Instance M_bind : MBind M := fun A B f m s =>
  match m s with
  | Return a s' => f a s'
  | Throw e s' => Throw e s'
  | Undefined => Undefined
  end.

(** A const member of [vec_] that cannot fail. *)
Definition read {A} (f : vector_type T -> A) : M A :=
  fun s => Return (f (vec_ s)) s.

(** A const member of [vec_] with a precondition or a bounds check. *)
Definition access {A} (f : vector_type T -> result A) : M A :=
  fun s => match f (vec_ s) with
           | Ok a => Return a s
           | Exn e => Throw e s
           | UB => Undefined
           end.

(** A mutating member of [vec_] that cannot fail. *)
Definition modify (f : vector_type T -> vector_type T) : M unit :=
  fun s => Return tt (RV (signal_emitter s) (f (vec_ s))).

(** A mutating member of [vec_] with a precondition, without and with a
    result. *)
Definition mutate (f : vector_type T -> result (vector_type T)) : M unit :=
  fun s => match f (vec_ s) with
           | Ok v => Return tt (RV (signal_emitter s) v)
           | Exn e => Throw e s
           | UB => Undefined
           end.

Definition mutate_get {A} (f : vector_type T -> result (A * vector_type T))
    : M A :=
  fun s => match f (vec_ s) with
           | Ok (a, v) => Return a (RV (signal_emitter s) v)
           | Exn e => Throw e s
           | UB => Undefined
           end.

(** [signal_emitter.emit(sig)] *)
Definition emit (sig : Signal) : M unit :=
  fun s => Return tt (RV (emitter_emit sig (signal_emitter s)) (vec_ s)).

(** ** Constructors: none of them emits *)

Definition new_default : ReactiveVector := RV [] vec_default.
Definition new_fill (n : nat) (value : T) : ReactiveVector :=
  RV [] (vec_fill n value).
Definition new_init (init : list T) : ReactiveVector :=
  RV [] (vec_init init).

(** ** Member functions *)

Definition rv_empty : M bool := read empty.
Definition rv_size : M nat := read size.
Definition rv_capacity : M nat := read capacity.

Definition rv_subscript (i : nat) : M T := access (subscript i).
Definition rv_at (i : nat) : M T := access (at_ i).

Definition rv_begin : M iterator := read vec_begin.
Definition rv_end : M iterator := read vec_end.

(** [inserted_signal{index, value}], for what [value] refers to when the
    signal is built. *)
Definition inserted_signal (index : nat) (value : referent T) : Signal :=
  match value with
  | Valid x => Inserted index x
  | Dangling => InsertedDangling index
  end.

(** The overload taking [const T&]: the signal is built from the
    parameter, after [vec_.push_back]. *)
Definition push_back (value : cref T) : M unit :=
  value' ← mutate_get (vec_push_back_cref value);
  n ← read size;
  emit (inserted_signal (n - 1) value').

(** The overload taking an rvalue: the signal carries [vec_.back()]. *)
Definition push_back_move (value : T) : M unit :=
  modify (vec_push_back value);;
  n ← read size;
  b ← access back;
  emit (Inserted (n - 1) b).

Definition emplace_back {Args : Type} (construct : Args -> T) (args : Args)
    : M T :=
  modify (vec_emplace_back construct args);;
  n ← read size;
  b ← access back;
  emit (Inserted (n - 1) b);;
  access back.

Definition pop_back : M unit :=
  e ← read empty;
  if e : bool then mret tt
  else
    n ← read size;
    let index := n - 1 in
    old_value ← access back;
    mutate vec_pop_back;;
    emit (Erased index old_value).

Definition clear : M unit :=
  e ← read empty;
  if negb e then
    modify vec_clear;;
    emit Cleared
  else mret tt.

Definition reserve (new_cap : nat) : M unit :=
  old_cap ← read capacity;
  mutate (vec_reserve new_cap);;
  c ← read capacity;
  if negb (c =? old_cap) then emit (Reserved c) else mret tt.

Definition resize (new_size : nat) (value : T) : M unit :=
  old_size ← read size;
  mutate (vec_resize new_size value);;
  if negb (new_size =? old_size) then emit (Resized old_size new_size)
  else mret tt.

Definition update_if_exists (index : nat) (new_value : T) : M bool :=
  n ← read size;
  if n <=? index then mret false
  else
    old_value ← access (subscript index);
    mutate (assign index new_value);;
    cur ← access (subscript index);
    emit (Updated index old_value cur);;
    mret true.

Definition erase (pos : iterator) : M iterator :=
  b ← read vec_begin;
  let index := distance b pos in
  old_value ← access (deref pos);
  it ← mutate_get (vec_erase pos);
  emit (Erased index old_value);;
  mret it.

(** A member function keeps the storage invariant when every call that
    returns takes an object that satisfies it to one that does. *)
Definition keeps {A : Type} (m : M A) : Prop :=
  forall s a s', fits (vec_ s) -> m s = Return a s' -> fits (vec_ s').

(** The shapes a call of a mutating member function can take, case by
    case: it returns without a signal and without a change, or it returns
    with one signal and the change that goes with it, or it throws and
    leaves the object as it was, or it has no defined outcome. *)
Inductive transition (s : ReactiveVector) : outcome unit -> Prop :=
| transition_silent : transition s (Return tt s)
| transition_inserted value :
    transition s
      (Return tt (RV (signal_emitter s ++ [Inserted (size (vec_ s)) value])
                     (vec_push_back value (vec_ s))))
| transition_inserted_dangling value :
    transition s
      (Return tt (RV (signal_emitter s ++ [InsertedDangling (size (vec_ s))])
                     (vec_push_back value (vec_ s))))
| transition_erased i x :
    elems (vec_ s) !! i = Some x ->
    transition s
      (Return tt (RV (signal_emitter s ++ [Erased i x])
                     (Vec (delete i (elems (vec_ s))) (cap (vec_ s)))))
| transition_cleared :
    0 < size (vec_ s) ->
    transition s
      (Return tt (RV (signal_emitter s ++ [Cleared]) (vec_clear (vec_ s))))
| transition_reserved n :
    cap (vec_ s) < n ->
    transition s
      (Return tt (RV (signal_emitter s
                        ++ [Reserved (reserve_cap (cap (vec_ s)) n)])
                     (reserve_storage n (vec_ s))))
| transition_resized n value :
    n <> size (vec_ s) ->
    transition s
      (Return tt (RV (signal_emitter s ++ [Resized (size (vec_ s)) n])
                     (resize_storage n value (vec_ s))))
| transition_updated i old value :
    elems (vec_ s) !! i = Some old ->
    transition s
      (Return tt (RV (signal_emitter s ++ [Updated i old value])
                     (Vec (<[i:=value]> (elems (vec_ s))) (cap (vec_ s)))))
| transition_throws e : transition s (Throw e s)
| transition_undefined : transition s Undefined.

(** ** The public operations as one step function

    Every mutating member function of the class, with its arguments.
    [emplace_back] builds its element from constructor arguments; the
    element type's constructor is a parameter. *)

Section Operations.
Context {Args : Type} (construct : Args -> T).

Inductive operation : Type :=
| PushBack (value : cref T)
| PushBackMove (value : T)
| EmplaceBack (args : Args)
| PopBack
| Clear
| Reserve (new_cap : nat)
| Resize (new_size : nat) (value : T)
| UpdateIfExists (index : nat) (new_value : T)
| Erase (pos : iterator).

Definition call (op : operation) : M unit :=
  match op with
  | PushBack value => push_back value
  | PushBackMove value => push_back_move value
  | EmplaceBack args => emplace_back construct args;; mret tt
  | PopBack => pop_back
  | Clear => clear
  | Reserve new_cap => reserve new_cap
  | Resize new_size value => resize new_size value
  | UpdateIfExists index new_value =>
      update_if_exists index new_value;; mret tt
  | Erase pos => erase pos;; mret tt
  end.

(** A program fragment: calls one after the other. *)
Fixpoint calls (ops : list operation) : M unit :=
  match ops with
  | [] => mret tt
  | op :: ops' => call op;; calls ops'
  end.

(** The objects a program can hold: built by a constructor, then changed
    by calls that return. *)
Inductive reachable : ReactiveVector -> Prop :=
| reachable_default : reachable new_default
| reachable_fill n value : reachable (new_fill n value)
| reachable_init init : reachable (new_init init)
| reachable_call s op s' :
    reachable s -> call op s = Return tt s' -> reachable s'.

End Operations.

End ReactiveVector.

Arguments Return {T A} a s.
Arguments Throw {T A} e s.
Arguments Undefined {T A}.
Arguments ReactiveVector T : clear implicits.
Arguments Signal T : clear implicits.
Arguments SignalEmitter T : clear implicits.
Arguments M T A : clear implicits.
#[export] Existing Instance M_ret.
#[export] Existing Instance M_bind.

(** ** The scenarios of the specification, run on the libstdc++ policy *)

Example scenario_push_update_pop :
  (push_back (Outside 1);; push_back (Outside 2);;
   update_if_exists 0 9;; pop_back)
    (new_default (T := nat))
  = Return tt (RV [Inserted 0 1; Inserted 1 2; Updated 0 1 9; Erased 1 2]
                  (Vec [9] 2)).
Proof. reflexivity. Qed.

Example scenario_resize_is_not_insertion :
  resize 5 7 (new_fill 3 0)
  = Return tt (RV [Resized 3 5] (Vec [0; 0; 0; 7; 7] 6)).
Proof. reflexivity. Qed.

Example scenario_reserve_twice :
  (reserve 100;; reserve 50) (new_default (T := nat))
  = Return tt (RV [Reserved 100] (Vec [] 100)).
Proof. reflexivity. Qed.

Example scenario_erase_middle :
  erase 1 (new_init [10; 20; 30])
  = Return 1 (RV [Erased 1 20] (Vec [10; 30] 3)).
Proof. reflexivity. Qed.

Example scenario_at_out_of_range :
  rv_at 3 (new_init [10; 20; 30]) = Throw out_of_range (new_init [10; 20; 30]).
Proof. reflexivity. Qed.

(** ** Facts about the storage *)

Section VectorFacts.
Context {T : Type} `{Allocation}.
Implicit Types (v : vector_type T) (x value : T) (i n : nat).

Lemma empty_true v : empty v = true <-> elems v = [].
Proof.
  unfold empty, size. rewrite Nat.eqb_eq. destruct (elems v); cbn; split;
    intros; congruence || lia.
Qed.

Lemma empty_false v : empty v = false <-> 0 < size v.
Proof. unfold empty. rewrite Nat.eqb_neq. lia. Qed.

Lemma size_push_back value v : size (vec_push_back value v) = S (size v).
Proof. unfold size; cbn. rewrite length_app; cbn. lia. Qed.

Lemma back_push_back value v : back (vec_push_back value v) = Ok value.
Proof. unfold back; cbn. now rewrite last_snoc. Qed.

(** A non-empty vector is its front followed by its back. *)
Lemma back_nonempty v :
  0 < size v ->
  exists x, back v = Ok x /\ elems v = removelast (elems v) ++ [x] /\
            elems v !! (size v - 1) = Some x.
Proof.
  unfold size, back. intros Hn.
  destruct (last (elems v)) as [x|] eqn:Hlast.
  - apply last_Some in Hlast as [l' ->]. exists x.
    rewrite removelast_last, length_app; cbn. repeat split.
    replace (length l' + 1 - 1) with (length l') by lia.
    apply list_lookup_middle; reflexivity.
  - apply last_None in Hlast. rewrite Hlast in Hn. cbn in Hn. lia.
Qed.

Lemma subscript_lt i v :
  i < size v -> exists x, elems v !! i = Some x /\ subscript i v = Ok x.
Proof.
  intros Hi. destruct (lookup_lt_is_Some_2 (elems v) i Hi) as [x Hx].
  exists x. unfold subscript. now rewrite Hx.
Qed.

Lemma subscript_assign i x v :
  i < size v ->
  subscript i (Vec (<[i:=x]> (elems v)) (cap v)) = Ok x.
Proof.
  intros Hi. unfold subscript; cbn. now rewrite list_lookup_insert_eq.
Qed.

(** The storage operations keep the storage invariant. *)
Lemma fits_default : fits (@vec_default T _).
Proof. unfold fits, size, capacity; cbn. lia. Qed.

Lemma fits_fill n value : fits (vec_fill n value).
Proof.
  unfold fits, size, capacity; cbn. rewrite length_replicate.
  apply construct_cap_ge.
Qed.

Lemma fits_init (init : list T) : fits (vec_init init).
Proof. unfold fits, size, capacity; cbn. apply construct_cap_ge. Qed.

Lemma fits_push_back value v : fits v -> fits (vec_push_back value v).
Proof.
  unfold fits, capacity. rewrite size_push_back. intros Hv.
  cbn [vec_push_back cap].
  destruct (Nat.ltb_spec (size v) (cap v)) as [Hlt|Hge]; [lia|].
  apply grow_cap_ge. lia.
Qed.

Lemma fits_pop_back v v' : fits v -> vec_pop_back v = Ok v' -> fits v'.
Proof.
  unfold fits, capacity, vec_pop_back. intros Hv.
  destruct (empty v) eqn:He; [discriminate|]. intros [= <-].
  apply empty_false in He. destruct (back_nonempty v He) as (x & _ & Hel & _).
  unfold size in *; cbn. rewrite Hel, length_app in Hv. cbn in Hv. lia.
Qed.

Lemma fits_clear v : fits v -> fits (vec_clear v).
Proof. unfold fits, size, capacity; cbn. lia. Qed.

Lemma fits_reserve_storage n v : fits v -> fits (reserve_storage n v).
Proof.
  unfold fits, capacity, reserve_storage. intros Hv.
  destruct (Nat.ltb_spec (cap v) n) as [Hlt|Hge]; [|assumption].
  pose proof (reserve_cap_ge (cap v) n Hlt). unfold size in *; cbn. lia.
Qed.

Lemma fits_resize_storage n value v :
  fits v -> fits (resize_storage n value v).
Proof.
  unfold fits, capacity, resize_storage. intros Hv.
  destruct (Nat.ltb_spec (size v) n) as [Hgrow|Hle].
  - unfold size in *; cbn [elems cap]. rewrite length_app, length_replicate.
    destruct (Nat.leb_spec n (cap v)) as [Hfit|Hout]; [lia|].
    pose proof (grow_cap_ge (cap v) (length (elems v)) n Hout). lia.
  - destruct (Nat.ltb_spec n (size v)) as [Hshrink|Hge]; [|assumption].
    unfold size in *; cbn [elems cap]. rewrite length_take. lia.
Qed.

Lemma fits_assign i x v v' : fits v -> assign i x v = Ok v' -> fits v'.
Proof.
  unfold fits, capacity, assign. intros Hv.
  destruct (i <? size v); [|discriminate]. intros [= <-].
  unfold size in *; cbn. now rewrite length_insert.
Qed.

Lemma fits_erase pos v it v' :
  fits v -> vec_erase pos v = Ok (it, v') -> fits v'.
Proof.
  unfold fits, capacity, vec_erase. intros Hv.
  destruct (Nat.ltb_spec pos (size v)) as [Hlt|]; [|discriminate].
  intros [= <- <-]. unfold size in *; cbn [elems cap].
  rewrite length_delete by now apply lookup_lt_is_Some_2. lia.
Qed.

Lemma fits_reserve n v v' : fits v -> vec_reserve n v = Ok v' -> fits v'.
Proof.
  unfold vec_reserve. intros Hv.
  destruct (exceeds_max_size n); [discriminate|]. intros [= <-].
  now apply fits_reserve_storage.
Qed.

Lemma fits_resize n value v v' :
  fits v -> vec_resize n value v = Ok v' -> fits v'.
Proof.
  unfold vec_resize. intros Hv.
  destruct ((size v <? n) && exceeds_max_size n); [discriminate|].
  intros [= <-]. now apply fits_resize_storage.
Qed.

Lemma fits_push_back_cref (r : cref T) v (r' : referent T) v' :
  fits v -> vec_push_back_cref r v = Ok (r', v') -> fits v'.
Proof.
  unfold vec_push_back_cref. intros Hv.
  destruct (load r v) as [x| |]; try discriminate. intros [= _ <-].
  now apply fits_push_back.
Qed.
End VectorFacts.

(** ** The mutation and notification contract *)

(** Unfolds a member function down to the storage operations. *)
Ltac run_method :=
  unfold push_back, push_back_move, emplace_back, pop_back, clear, reserve,
    resize, update_if_exists, erase, rv_at, rv_subscript;
  unfold mbind, M_bind, mret, M_ret, read, access, modify, mutate, mutate_get,
    emit, emitter_emit;
  cbn [vec_ signal_emitter].

Section Contract.
Context {T : Type} `{Allocation}.
Implicit Types (s : ReactiveVector T) (v value f : T) (i j n : nat).

(** C2: on a non-empty sequence [pop_back()] removes the last element, the
    size drops by exactly one and exactly one [Erased] signal is emitted,
    with index = old size - 1 and the removed element; on an empty sequence
    the call changes nothing and emits nothing. *)
Theorem pop_back_removes_last_or_is_noop s :
  (0 < size (vec_ s) ->
   exists x s',
     pop_back s = Return tt s' /\
     elems (vec_ s) = elems (vec_ s') ++ [x] /\
     elems (vec_ s) !! (size (vec_ s) - 1) = Some x /\
     size (vec_ s') = size (vec_ s) - 1 /\
     signal_emitter s' =
       signal_emitter s ++ [Erased (size (vec_ s) - 1) x]) /\
  (size (vec_ s) = 0 -> pop_back s = Return tt s).
Proof.
  split.
  - intros Hn. destruct (back_nonempty (vec_ s) Hn) as (x & Hb & Hel & Hx).
    exists x. eexists. run_method. unfold vec_pop_back.
    apply empty_false in Hn as He. rewrite He, Hb. cbn. rewrite He.
    split; [reflexivity|]. cbn. repeat split; try assumption.
    unfold size. rewrite Hel at 2. rewrite length_app; cbn. lia.
  - intros Hz. run_method.
    assert (He : empty (vec_ s) = true) by (unfold empty; now rewrite Hz).
    now rewrite He.
Qed.

(** What [update_if_exists] does on an index in range. *)
Lemma update_in_range s i v :
  i < size (vec_ s) ->
  exists old,
    elems (vec_ s) !! i = Some old /\
    update_if_exists i v s =
      Return true (RV (signal_emitter s ++ [Updated i old v])
                      (Vec (<[i:=v]> (elems (vec_ s))) (cap (vec_ s)))).
Proof.
  intros Hlt. destruct (subscript_lt i (vec_ s) Hlt) as (old & Hold & Hsub).
  exists old. split; [assumption|]. run_method.
  assert (Hleb : (size (vec_ s) <=? i) = false) by now apply Nat.leb_gt.
  assert (Hltb : (i <? size (vec_ s)) = true) by now apply Nat.ltb_lt.
  rewrite Hleb, Hsub. unfold assign. rewrite Hltb. cbn.
  now rewrite (subscript_assign i v (vec_ s) Hlt).
Qed.

(** C3: [update_if_exists(i, v)] with [i >= size] returns false, emits
    nothing and changes nothing; with [i < size] it returns true, stores
    [v] at index [i] and emits exactly one [Updated] signal carrying [i],
    the element that was at [i], and [v]. *)
Theorem update_if_exists_checks_the_index s i v :
  (size (vec_ s) <= i -> update_if_exists i v s = Return false s) /\
  (i < size (vec_ s) ->
   exists old s',
     elems (vec_ s) !! i = Some old /\
     update_if_exists i v s = Return true s' /\
     elems (vec_ s') = <[i:=v]> (elems (vec_ s)) /\
     elems (vec_ s') !! i = Some v /\
     signal_emitter s' = signal_emitter s ++ [Updated i old v]).
Proof.
  split.
  - intros Hge. run_method. apply Nat.leb_le in Hge. now rewrite Hge.
  - intros Hlt.
    destruct (update_in_range s i v Hlt)
      as (old & Hold & Hrun).
    exists old. eexists. split; [assumption|]. split; [exact Hrun|]. cbn.
    split; [reflexivity|]. split; [|reflexivity].
    now apply list_lookup_insert_eq.
Qed.

(** C10: a successful [update_if_exists(i, v)] touches the element at
    index [i] only: size, capacity and the element at every other index are
    as before. *)
Theorem update_if_exists_frame s i v :
  i < size (vec_ s) ->
  exists s',
    update_if_exists i v s = Return true s' /\
    size (vec_ s') = size (vec_ s) /\
    capacity (vec_ s') = capacity (vec_ s) /\
    (forall j, j <> i -> elems (vec_ s') !! j = elems (vec_ s) !! j).
Proof.
  intros Hlt.
  destruct (update_in_range s i v Hlt)
    as (old & Hold & Hrun).
  eexists. split; [exact Hrun|]. cbn. unfold size; cbn.
  split; [apply length_insert|]. split; [reflexivity|].
  intros j Hj. now apply list_lookup_insert_ne.
Qed.

(** C4, as amended: [resize(n, f)] above the size, with [n] within
    [max_size()], appends [n - size] copies of [f] behind the elements;
    below the size it keeps the first [n] elements; both emit exactly one
    [Resized] signal with the old size and [n].  With [n] equal to the
    size nothing changes and nothing is emitted.  Above the size and
    beyond [max_size()] the call throws [length_error], changes nothing
    and emits nothing. *)
Theorem resize_grows_shrinks_or_is_noop s n f :
  (size (vec_ s) < n -> exceeds_max_size n = false ->
   exists s',
     resize n f s = Return tt s' /\
     elems (vec_ s') = elems (vec_ s) ++ replicate (n - size (vec_ s)) f /\
     size (vec_ s') = n /\
     signal_emitter s' = signal_emitter s ++ [Resized (size (vec_ s)) n]) /\
  (size (vec_ s) < n -> exceeds_max_size n = true ->
   resize n f s = Throw length_error s) /\
  (n < size (vec_ s) ->
   exists s',
     resize n f s = Return tt s' /\
     elems (vec_ s') = take n (elems (vec_ s)) /\
     size (vec_ s') = n /\
     signal_emitter s' = signal_emitter s ++ [Resized (size (vec_ s)) n]) /\
  (n = size (vec_ s) -> resize n f s = Return tt s).
Proof.
  split; [|split; [|split]].
  - intros Hgrow Hmax. run_method. unfold vec_resize, resize_storage.
    apply Nat.ltb_lt in Hgrow as Hltb. rewrite Hltb, Hmax. cbn.
    assert (Hne : (n =? size (vec_ s)) = false) by (apply Nat.eqb_neq; lia).
    rewrite Hne. cbn. eexists. split; [reflexivity|]. cbn.
    split; [reflexivity|]. split; [|reflexivity].
    unfold size; cbn. rewrite length_app, length_replicate.
    unfold size in Hgrow. lia.
  - intros Hgrow Hmax. run_method. unfold vec_resize.
    apply Nat.ltb_lt in Hgrow as Hltb. now rewrite Hltb, Hmax.
  - intros Hshrink. run_method. unfold vec_resize, resize_storage.
    assert (Hge : (size (vec_ s) <? n) = false) by (apply Nat.ltb_ge; lia).
    apply Nat.ltb_lt in Hshrink as Hltb. rewrite Hge, Hltb. cbn.
    assert (Hne : (n =? size (vec_ s)) = false) by (apply Nat.eqb_neq; lia).
    rewrite Hne. cbn. eexists. split; [reflexivity|]. cbn.
    split; [reflexivity|]. split; [|reflexivity].
    unfold size; cbn. rewrite length_take. unfold size in Hshrink. lia.
  - intros ->. run_method. unfold vec_resize, resize_storage.
    rewrite Nat.ltb_irrefl, Nat.eqb_refl. cbn. now destruct s.
Qed.

(** C5, as amended: [reserve(n)] with [n] within [max_size()] returns
    with a capacity of at least [n] and never a smaller capacity than
    before; size and elements are untouched.  It emits exactly one
    [Reserved] signal, carrying the resulting capacity, exactly when the
    capacity changed, and nothing otherwise; a request within the current
    capacity changes nothing and emits nothing.  With [n] beyond
    [max_size()] the call throws [length_error], changes nothing and emits
    nothing. *)
Theorem reserve_reports_capacity_changes s n :
  (exceeds_max_size n = false ->
   exists s',
     reserve n s = Return tt s' /\
     n <= capacity (vec_ s') /\
     capacity (vec_ s) <= capacity (vec_ s') /\
     elems (vec_ s') = elems (vec_ s) /\
     size (vec_ s') = size (vec_ s) /\
     (capacity (vec_ s') <> capacity (vec_ s) ->
        signal_emitter s' =
          signal_emitter s ++ [Reserved (capacity (vec_ s'))]) /\
     (capacity (vec_ s') = capacity (vec_ s) ->
        signal_emitter s' = signal_emitter s) /\
     (n <= capacity (vec_ s) -> s' = s)) /\
  (exceeds_max_size n = true -> reserve n s = Throw length_error s).
Proof.
  split.
  - intros Hmax. run_method. unfold vec_reserve, reserve_storage, capacity.
    rewrite Hmax.
    destruct (Nat.ltb_spec (cap (vec_ s)) n) as [Hlt|Hge]; cbn [cap].
    + pose proof (reserve_cap_ge (cap (vec_ s)) n Hlt) as Hcap.
      assert (Hne : (reserve_cap (cap (vec_ s)) n =? cap (vec_ s)) = false)
        by (apply Nat.eqb_neq; lia).
      cbn. rewrite Hne. cbn. eexists. split; [reflexivity|]. cbn.
      split; [assumption|]. split; [lia|]. split; [reflexivity|].
      split; [reflexivity|]. split; [reflexivity|]. split; lia.
    + cbn. rewrite Nat.eqb_refl. cbn. eexists. split; [reflexivity|]. cbn.
      split; [assumption|]. split; [lia|]. split; [reflexivity|].
      split; [reflexivity|]. split; [congruence|]. split; [reflexivity|].
      intros _. now destruct s.
  - intros Hmax. run_method. unfold vec_reserve. now rewrite Hmax.
Qed.

(** C6: [clear()] on a non-empty sequence leaves it with no element, size
    0, and emits exactly one [Cleared] signal; on an empty sequence it
    changes nothing and emits nothing. *)
Theorem clear_empties_or_is_noop s :
  (0 < size (vec_ s) ->
   exists s',
     clear s = Return tt s' /\
     elems (vec_ s') = [] /\
     size (vec_ s') = 0 /\
     signal_emitter s' = signal_emitter s ++ [Cleared]) /\
  (size (vec_ s) = 0 -> clear s = Return tt s).
Proof.
  split.
  - intros Hn. apply empty_false in Hn as He. run_method. rewrite He. cbn.
    eexists. split; [reflexivity|]. cbn. repeat split.
  - intros Hz. run_method.
    assert (He : empty (vec_ s) = true) by (unfold empty; now rewrite Hz).
    now rewrite He.
Qed.

(** C7: when the position at offset [i] from [begin()] denotes the live
    element [x], [erase] removes it: the elements before [i] stay where
    they are, every element after [i] moves down by one index, the size
    drops by exactly one, and exactly one [Erased] signal is emitted, with
    index [i] and old value [x].  The iterator returned is the position
    following the removed element. *)
Theorem erase_removes_and_shifts s i x :
  elems (vec_ s) !! i = Some x ->
  exists s',
    erase i s = Return i s' /\
    (forall j, j < i -> elems (vec_ s') !! j = elems (vec_ s) !! j) /\
    (forall j, i <= j -> elems (vec_ s') !! j = elems (vec_ s) !! S j) /\
    elems (vec_ s') = take i (elems (vec_ s)) ++ drop (S i) (elems (vec_ s)) /\
    size (vec_ s') = size (vec_ s) - 1 /\
    size (vec_ s) = size (vec_ s') + 1 /\
    signal_emitter s' = signal_emitter s ++ [Erased i x].
Proof.
  intros Hx. pose proof (lookup_lt_Some _ _ _ Hx) as Hlt.
  assert (Hltb : (i <? size (vec_ s)) = true) by now apply Nat.ltb_lt.
  run_method. unfold deref, subscript, vec_erase, distance, vec_begin.
  rewrite Hx, Hltb. cbn [vec_ signal_emitter]. rewrite Nat.sub_0_r.
  eexists. split; [reflexivity|]. unfold size. cbn [vec_ signal_emitter elems].
  assert (Hlen : length (delete i (elems (vec_ s)))
                 = length (elems (vec_ s)) - 1).
  { rewrite length_delete by eauto. reflexivity. }
  split; [|split; [|split; [|split; [|split]]]].
  - intros j Hj. now apply list_lookup_delete_lt.
  - intros j Hj. now apply list_lookup_delete_ge.
  - apply delete_take_drop.
  - exact Hlen.
  - unfold size in Hlt. rewrite Hlen. lia.
  - reflexivity.
Qed.

(** C8: the bounds-checked [at(i)] fails exactly when [i >= size]; the
    failure is the out-of-range exception, it reaches the caller, and the
    object is as before.  For [i < size] the call returns the element at
    index [i], and the object, emitter included, is as before. *)
Theorem at_is_bounds_checked s i :
  ((exists e s', rv_at i s = Throw e s') <-> size (vec_ s) <= i) /\
  (size (vec_ s) <= i -> rv_at i s = Throw out_of_range s) /\
  (i < size (vec_ s) ->
   exists x, elems (vec_ s) !! i = Some x /\ rv_at i s = Return x s).
Proof.
  assert (Hin : i < size (vec_ s) ->
            exists x, elems (vec_ s) !! i = Some x /\ rv_at i s = Return x s).
  { intros Hlt. destruct (subscript_lt i (vec_ s) Hlt) as (x & Hx & Hsub).
    exists x. split; [assumption|]. run_method. unfold at_.
    assert (Hleb : (size (vec_ s) <=? i) = false) by now apply Nat.leb_gt.
    now rewrite Hleb, Hsub. }
  assert (Hout : size (vec_ s) <= i -> rv_at i s = Throw out_of_range s).
  { intros Hge. run_method. unfold at_. apply Nat.leb_le in Hge.
    now rewrite Hge. }
  split; [|split; assumption].
  split.
  - intros (e & s' & Hthrow).
    destruct (Nat.le_gt_cases (size (vec_ s)) i) as [Hge|Hlt]; [assumption|].
    destruct (Hin Hlt) as (x & _ & Hret). congruence.
  - intros Hge. exists out_of_range, s. now apply Hout.
Qed.

End Contract.

(** C1: the [const T&] overload of [push_back] on the input where it
    fails.  The vector [10; 20; 30] of the libstdc++ policy is full and
    the argument is its own element 0, as in [rv.push_back(rv[0])].  The
    element 10 is appended at index 3, but [vec_.push_back] moved the
    storage before the signal was built from the parameter, so [Inserted]
    is delivered with a dangling [value] where the specification has the
    value 10.  The rvalue overload and [emplace_back], which build the signal
    from [vec_.back()], emit [Inserted] with index 3 and value 10 on the
    same vector. *)
Theorem push_back_of_own_element_emits_dangling :
  push_back (Element 0) (new_init [10; 20; 30])
  = Return tt (RV [InsertedDangling 3] (Vec [10; 20; 30; 10] 6)) /\
  push_back_move 10 (new_init [10; 20; 30])
  = Return tt (RV [Inserted 3 10] (Vec [10; 20; 30; 10] 6)) /\
  emplace_back (fun n : nat => n) 10 (new_init [10; 20; 30])
  = Return 10 (RV [Inserted 3 10] (Vec [10; 20; 30; 10] 6)).
Proof. repeat split. Qed.

(** ** The storage invariant across the member functions *)

Section Invariant.
Context {T : Type} `{Allocation}.
Implicit Types (s : ReactiveVector T) (v value : T) (i n : nat).

Lemma keeps_ret {A} (a : A) : keeps (T := T) (mret a).
Proof. intros s a' s' Hs [= _ <-]. exact Hs. Qed.

Lemma keeps_bind {A B} (m : M T A) (f : A -> M T B) :
  keeps m -> (forall a, keeps (f a)) -> keeps (m ≫= f).
Proof.
  intros Hm Hf s b s'' Hs. unfold mbind, M_bind.
  destruct (m s) as [a s'| |] eqn:Hrun; try discriminate.
  intros Hrun'. exact (Hf a s' b s'' (Hm s a s' Hs Hrun) Hrun').
Qed.

Lemma keeps_read {A} (g : vector_type T -> A) : keeps (read g).
Proof. intros s a s' Hs [= _ <-]. exact Hs. Qed.

Lemma keeps_access {A} (g : vector_type T -> result A) : keeps (access g).
Proof.
  intros s a s' Hs. unfold access.
  destruct (g (vec_ s)); try discriminate. intros [= _ <-]. exact Hs.
Qed.

Lemma keeps_emit (sig : Signal T) : keeps (emit sig).
Proof. intros s a s' Hs Hrun. inversion Hrun; subst. exact Hs. Qed.

Lemma keeps_modify (g : vector_type T -> vector_type T) :
  (forall w, fits w -> fits (g w)) -> keeps (modify g).
Proof.
  intros Hg s a s' Hs Hrun. inversion Hrun; subst. cbn. now apply Hg.
Qed.

Lemma keeps_mutate (g : vector_type T -> result (vector_type T)) :
  (forall w w', fits w -> g w = Ok w' -> fits w') -> keeps (mutate g).
Proof.
  intros Hg s a s' Hs. unfold mutate.
  destruct (g (vec_ s)) as [w'| |] eqn:Hrun; try discriminate.
  intros Hret. inversion Hret; subst. cbn. now apply (Hg (vec_ s)).
Qed.

Lemma keeps_mutate_get {A} (g : vector_type T -> result (A * vector_type T)) :
  (forall w a w', fits w -> g w = Ok (a, w') -> fits w') ->
  keeps (mutate_get g).
Proof.
  intros Hg s a s' Hs. unfold mutate_get.
  destruct (g (vec_ s)) as [[a' w']| |] eqn:Hrun; try discriminate.
  intros [= _ <-]. cbn. now apply (Hg (vec_ s) a').
Qed.

Lemma keeps_if {A} (b : bool) (m1 m2 : M T A) :
  keeps m1 -> keeps m2 -> keeps (if b then m1 else m2).
Proof. now destruct b. Qed.

Create HintDb keeps.
#[local] Hint Resolve keeps_ret keeps_read keeps_access keeps_emit keeps_if
  fits_push_back fits_pop_back fits_clear fits_reserve fits_resize
  fits_assign fits_erase fits_push_back_cref : keeps.

(** Splits a member function at its binds and closes the pieces. *)
Ltac keeps_steps :=
  repeat first
    [ apply keeps_bind; [|intros ?]
    | apply keeps_if
    | apply keeps_modify; intros ? ?
    | apply keeps_mutate; intros ? ? ?
    | apply keeps_mutate_get; intros ? ? ? ?
    | solve [eauto with keeps] ].

Lemma keeps_push_back (r : cref T) : keeps (push_back r).
Proof. unfold push_back. keeps_steps. Qed.

Lemma keeps_push_back_move v : keeps (push_back_move v).
Proof. unfold push_back_move. keeps_steps. Qed.

Lemma keeps_emplace_back {Args} (construct : Args -> T) (args : Args) :
  keeps (emplace_back construct args).
Proof. unfold emplace_back, vec_emplace_back. keeps_steps. Qed.

Lemma keeps_pop_back : keeps (T := T) pop_back.
Proof. unfold pop_back. keeps_steps. Qed.

Lemma keeps_clear : keeps (T := T) clear.
Proof. unfold clear. keeps_steps. Qed.

Lemma keeps_reserve n : keeps (T := T) (reserve n).
Proof. unfold reserve. keeps_steps. Qed.

Lemma keeps_resize n v : keeps (resize n v).
Proof. unfold resize. keeps_steps. Qed.

Lemma keeps_update_if_exists i v : keeps (update_if_exists i v).
Proof. unfold update_if_exists. keeps_steps. Qed.

Lemma keeps_erase (pos : iterator) : keeps (T := T) (erase pos).
Proof. unfold erase. keeps_steps. Qed.

Lemma keeps_call {Args} (construct : Args -> T) (op : operation) :
  keeps (call construct op).
Proof.
  destruct op; cbn [call];
    eauto using keeps_bind, keeps_ret, keeps_push_back, keeps_push_back_move,
      keeps_emplace_back, keeps_pop_back, keeps_clear, keeps_reserve,
      keeps_resize, keeps_update_if_exists, keeps_erase.
Qed.

(** C9: every object built by one of the three constructors and then
    changed by any finite sequence of calls of [push_back], [emplace_back],
    [pop_back], [clear], [reserve], [resize], [update_if_exists] and
    [erase] has a capacity of at least its size. *)
Theorem capacity_bounds_size {Args} (construct : Args -> T) s :
  reachable construct s -> size (vec_ s) <= capacity (vec_ s).
Proof.
  change (reachable construct s -> fits (vec_ s)).
  induction 1 as [|n value|init|s op s' _ IH Hcall].
  - apply fits_default.
  - apply fits_fill.
  - apply fits_init.
  - exact (keeps_call construct op s tt s' IH Hcall).
Qed.

End Invariant.

(** ** The contract on concrete objects, with the libstdc++ policy *)

Lemma pop_back_witness :
  0 < size (vec_ (new_init [10; 20; 30])) /\
  size (vec_ (new_default (T := nat))) = 0 /\
  (exists x s',
     pop_back (new_init [10; 20; 30]) = Return tt s' /\
     signal_emitter s' = [] ++ [Erased (3 - 1) x]) /\
  pop_back (new_default (T := nat)) = Return tt new_default.
Proof.
  split; [cbn; lia|]. split; [reflexivity|]. split.
  - destruct (proj1 (pop_back_removes_last_or_is_noop (new_init [10; 20; 30])))
      as (x & s' & Hrun & _ & _ & _ & Hsig); [cbn; lia|].
    exists x, s'. split; assumption.
  - apply (proj2 (pop_back_removes_last_or_is_noop new_default)).
    reflexivity.
Defined.

Lemma update_if_exists_witness :
  size (vec_ (new_init [10; 20; 30])) <= 3 /\
  1 < size (vec_ (new_init [10; 20; 30])) /\
  update_if_exists 3 7 (new_init [10; 20; 30])
    = Return false (new_init [10; 20; 30]) /\
  exists old s',
    update_if_exists 1 7 (new_init [10; 20; 30]) = Return true s' /\
    elems (vec_ s') = <[1:=7]> [10; 20; 30] /\
    signal_emitter s' = [] ++ [Updated 1 old 7].
Proof.
  split; [cbn; lia|]. split; [cbn; lia|]. split.
  - apply (proj1 (update_if_exists_checks_the_index
                    (new_init [10; 20; 30]) 3 7)).
    cbn; lia.
  - destruct (proj2 (update_if_exists_checks_the_index
                       (new_init [10; 20; 30]) 1 7))
      as (old & s' & _ & Hrun & Hel & _ & Hsig); [cbn; lia|].
    exists old, s'. repeat split; assumption.
Defined.

Lemma update_if_exists_frame_witness :
  1 < size (vec_ (new_init [10; 20; 30])) /\
  exists s',
    update_if_exists 1 7 (new_init [10; 20; 30]) = Return true s' /\
    size (vec_ s') = 3 /\
    capacity (vec_ s') = 3 /\
    (forall j, j <> 1 -> elems (vec_ s') !! j = [10; 20; 30] !! j).
Proof.
  split; [cbn; lia|].
  refine (update_if_exists_frame (new_init [10; 20; 30]) 1 7 _). cbn; lia.
Defined.

Lemma SIZE_MAX_positive : 0 < SIZE_MAX.
Proof. unfold SIZE_MAX. lia. Qed.

Lemma SIZE_MAX_exceeds_max_size :
  exceeds_max_size (H := libstdcxx) SIZE_MAX = true.
Proof. unfold exceeds_max_size, SIZE_MAX. now rewrite N2Nat.id. Qed.

Lemma resize_witness :
  (size (vec_ (new_fill 3 0)) < 5 /\ exceeds_max_size 5 = false) /\
  (size (vec_ (new_default (T := nat))) < SIZE_MAX /\
   exceeds_max_size SIZE_MAX = true) /\
  (exists s',
     resize 5 7 (new_fill 3 0) = Return tt s' /\
     elems (vec_ s') = [0; 0; 0] ++ replicate (5 - 3) 7 /\
     signal_emitter s' = [] ++ [Resized 3 5]) /\
  resize SIZE_MAX 7 new_default = Throw length_error new_default.
Proof.
  split; [split; [cbn; lia|reflexivity]|].
  split; [split; [apply SIZE_MAX_positive|apply SIZE_MAX_exceeds_max_size]|].
  split.
  - destruct (proj1 (resize_grows_shrinks_or_is_noop (new_fill 3 0) 5 7))
      as (s' & Hrun & Hel & _ & Hsig); [cbn; lia|reflexivity|].
    exists s'. repeat split; assumption.
  - apply (proj1 (proj2 (resize_grows_shrinks_or_is_noop new_default
                           SIZE_MAX 7))).
    + apply SIZE_MAX_positive.
    + apply SIZE_MAX_exceeds_max_size.
Defined.

(** C4 without the bound fails on a default-constructed vector of the
    libstdc++ policy at [n = SIZE_MAX]: [n] is above the size, but the
    call throws instead of appending and emitting. *)
Lemma resize_beyond_max_size_throws :
  size (vec_ (new_default (T := nat))) < SIZE_MAX /\
  resize SIZE_MAX 7 new_default = Throw length_error new_default /\
  ~ (exists s', resize SIZE_MAX 7 (new_default (T := nat)) = Return tt s').
Proof.
  assert (Hrun : resize SIZE_MAX 7 new_default
                 = Throw length_error new_default).
  { run_method. unfold vec_resize.
    change (size (vec_ (new_default (T := nat)))) with 0.
    pose proof SIZE_MAX_positive as Hpos. apply Nat.ltb_lt in Hpos.
    now rewrite Hpos, SIZE_MAX_exceeds_max_size. }
  split; [apply SIZE_MAX_positive|]. split; [exact Hrun|].
  intros (s' & Hret). rewrite Hrun in Hret. discriminate.
Qed.

Lemma reserve_witness :
  exceeds_max_size 100 = false /\
  exceeds_max_size SIZE_MAX = true /\
  (exists s',
     reserve 100 (new_init [10; 20; 30]) = Return tt s' /\
     100 <= capacity (vec_ s') /\
     elems (vec_ s') = [10; 20; 30]) /\
  reserve SIZE_MAX (new_init [10; 20; 30])
    = Throw length_error (new_init [10; 20; 30]).
Proof.
  split; [reflexivity|]. split; [apply SIZE_MAX_exceeds_max_size|]. split.
  - destruct (proj1 (reserve_reports_capacity_changes
                       (new_init [10; 20; 30]) 100))
      as (s' & Hrun & Hcap & _ & Hel & _); [reflexivity|].
    exists s'. repeat split; assumption.
  - apply (proj2 (reserve_reports_capacity_changes
                    (new_init [10; 20; 30]) SIZE_MAX)).
    apply SIZE_MAX_exceeds_max_size.
Defined.

(** C5 without the bound fails on a default-constructed vector of the
    libstdc++ policy at [n = SIZE_MAX]: the call throws, and the capacity
    afterwards is the one before, below [n]. *)
Lemma reserve_beyond_max_size_throws :
  reserve SIZE_MAX (new_default (T := nat))
    = Throw length_error new_default /\
  capacity (vec_ (new_default (T := nat))) < SIZE_MAX /\
  ~ (exists s', reserve SIZE_MAX (new_default (T := nat)) = Return tt s').
Proof.
  assert (Hrun : reserve SIZE_MAX (new_default (T := nat))
                 = Throw length_error new_default).
  { run_method. unfold vec_reserve.
    now rewrite SIZE_MAX_exceeds_max_size. }
  split; [exact Hrun|]. split; [apply SIZE_MAX_positive|].
  intros (s' & Hret). rewrite Hrun in Hret. discriminate.
Qed.

Lemma clear_witness :
  0 < size (vec_ (new_init [10; 20; 30])) /\
  size (vec_ (new_default (T := nat))) = 0 /\
  (exists s',
     clear (new_init [10; 20; 30]) = Return tt s' /\
     elems (vec_ s') = [] /\
     signal_emitter s' = [] ++ [Cleared]) /\
  clear (new_default (T := nat)) = Return tt new_default.
Proof.
  split; [cbn; lia|]. split; [reflexivity|]. split.
  - destruct (proj1 (clear_empties_or_is_noop (new_init [10; 20; 30])))
      as (s' & Hrun & Hel & _ & Hsig); [cbn; lia|].
    exists s'. repeat split; assumption.
  - apply (proj2 (clear_empties_or_is_noop new_default)). reflexivity.
Defined.

Lemma erase_witness :
  [10; 20; 30] !! 1 = Some 20 /\
  exists s',
    erase 1 (new_init [10; 20; 30]) = Return 1 s' /\
    elems (vec_ s') = take 1 [10; 20; 30] ++ drop 2 [10; 20; 30] /\
    signal_emitter s' = [] ++ [Erased 1 20].
Proof.
  split; [reflexivity|].
  destruct (erase_removes_and_shifts (new_init [10; 20; 30]) 1 20)
    as (s' & Hrun & _ & _ & Hel & _ & _ & Hsig); [reflexivity|].
  exists s'. repeat split; assumption.
Defined.

Lemma at_witness :
  size (vec_ (new_init [10; 20; 30])) <= 3 /\
  1 < size (vec_ (new_init [10; 20; 30])) /\
  rv_at 3 (new_init [10; 20; 30])
    = Throw out_of_range (new_init [10; 20; 30]) /\
  exists x,
    [10; 20; 30] !! 1 = Some x /\
    rv_at 1 (new_init [10; 20; 30]) = Return x (new_init [10; 20; 30]).
Proof.
  split; [cbn; lia|]. split; [cbn; lia|]. split.
  - apply (proj1 (proj2 (at_is_bounds_checked (new_init [10; 20; 30]) 3))).
    cbn; lia.
  - apply (proj2 (proj2 (at_is_bounds_checked (new_init [10; 20; 30]) 1))).
    cbn; lia.
Defined.

Lemma capacity_bounds_size_witness :
  reachable (fun n : nat => n) (RV [Inserted 0 4] (Vec [4] 1)) /\
  size (Vec [4] 1) <= capacity (Vec [4] 1).
Proof.
  assert (Hreach : reachable (fun n : nat => n)
                                (RV [Inserted 0 4] (Vec [4] 1))).
  { apply (reachable_call _ new_default (EmplaceBack 4));
      [apply reachable_default|reflexivity]. }
  split; [exact Hreach|].
  exact (capacity_bounds_size (fun n : nat => n) _ Hreach).
Defined.

(** ** What each member function evaluates to *)

Section Runs.
Context {T : Type} `{Allocation}.
Implicit Types (s : ReactiveVector T) (v value f : T) (i j n pos : nat).
Implicit Types (l : list T).

Lemma delete_last l x : delete (length l) (l ++ [x]) = l.
Proof.
  induction l as [|a l IH]; [reflexivity|].
  change (a :: delete (length l) (l ++ [x]) = a :: l). now rewrite IH.
Qed.

Lemma rebuild s : RV (signal_emitter s) (vec_ s) = s.
Proof. now destruct s. Qed.

Lemma push_back_run s v :
  push_back (Outside v) s
  = Return tt (RV (signal_emitter s ++ [Inserted (size (vec_ s)) v])
                  (vec_push_back v (vec_ s))).
Proof.
  run_method. unfold vec_push_back_cref. cbn [load vec_ signal_emitter].
  rewrite size_push_back. cbn. now rewrite Nat.sub_0_r.
Qed.

Lemma push_back_run_element s i x :
  elems (vec_ s) !! i = Some x ->
  push_back (Element i) s
  = Return tt
      (RV (signal_emitter s
             ++ [if push_back_reallocates (vec_ s)
                 then InsertedDangling (size (vec_ s))
                 else Inserted (size (vec_ s)) x])
          (vec_push_back x (vec_ s))).
Proof.
  intros Hx. run_method. unfold vec_push_back_cref, load, subscript.
  rewrite Hx. cbn [vec_ signal_emitter]. rewrite size_push_back.
  destruct (push_back_reallocates (vec_ s)); cbn; now rewrite Nat.sub_0_r.
Qed.

Lemma push_back_run_invalid s i :
  size (vec_ s) <= i -> push_back (Element i) s = Undefined.
Proof.
  intros Hge. run_method. unfold vec_push_back_cref, load, subscript.
  now rewrite (lookup_ge_None_2 (elems (vec_ s)) i Hge).
Qed.

(** [push_back] for any argument that can be read: the element appended
    is what the argument refers to, and one signal is emitted, [Inserted]
    with that value unless the argument was an element and the storage
    moved. *)
Lemma push_back_run_any s (r : cref T) v :
  load r (vec_ s) = Ok v ->
  exists sig,
    push_back r s
    = Return tt (RV (signal_emitter s ++ [sig]) (vec_push_back v (vec_ s))) /\
    ((sig = Inserted (size (vec_ s)) v /\
      ((exists x, r = Outside x) \/ push_back_reallocates (vec_ s) = false)) \/
     (sig = InsertedDangling (size (vec_ s)) /\
      (exists i, r = Element i) /\ push_back_reallocates (vec_ s) = true)).
Proof.
  destruct r as [x|i]; cbn [load].
  - intros [= ->]. eexists. split; [apply push_back_run|]. left. eauto.
  - unfold subscript. destruct (elems (vec_ s) !! i) as [x|] eqn:Hx;
      [|discriminate].
    intros [= ->]. eexists. split; [now apply push_back_run_element|].
    destruct (push_back_reallocates (vec_ s)); [right|left]; eauto.
Qed.

Lemma push_back_move_run s v : push_back_move v s = push_back (Outside v) s.
Proof.
  rewrite push_back_run. run_method.
  rewrite back_push_back, size_push_back. cbn. now rewrite Nat.sub_0_r.
Qed.

Lemma emplace_back_run {Args} (construct : Args -> T) (args : Args) s :
  emplace_back construct args s
  = Return (construct args)
      (RV (signal_emitter s ++ [Inserted (size (vec_ s)) (construct args)])
          (vec_push_back (construct args) (vec_ s))).
Proof.
  run_method. unfold vec_emplace_back.
  rewrite back_push_back, size_push_back. cbn [vec_ signal_emitter].
  rewrite back_push_back. cbn. now rewrite Nat.sub_0_r.
Qed.

Lemma pop_back_run_empty s : size (vec_ s) = 0 -> pop_back s = Return tt s.
Proof.
  intros Hz. run_method.
  assert (He : empty (vec_ s) = true) by (unfold empty; now rewrite Hz).
  now rewrite He.
Qed.

Lemma pop_back_run s l x :
  elems (vec_ s) = l ++ [x] ->
  pop_back s
  = Return tt (RV (signal_emitter s ++ [Erased (length l) x])
                  (Vec l (cap (vec_ s)))).
Proof.
  intros Hel. run_method.
  assert (Hsz : size (vec_ s) = S (length l)).
  { unfold size. rewrite Hel, length_app. cbn. lia. }
  assert (He : empty (vec_ s) = false) by (apply empty_false; lia).
  unfold vec_pop_back, back. rewrite He, Hel, last_snoc. cbn.
  rewrite He, Hel, removelast_last, Hsz. cbn. now rewrite Nat.sub_0_r.
Qed.

Lemma clear_run_empty s : size (vec_ s) = 0 -> clear s = Return tt s.
Proof.
  intros Hz. run_method.
  assert (He : empty (vec_ s) = true) by (unfold empty; now rewrite Hz).
  now rewrite He.
Qed.

Lemma clear_run s :
  0 < size (vec_ s) ->
  clear s = Return tt (RV (signal_emitter s ++ [Cleared]) (vec_clear (vec_ s))).
Proof.
  intros Hn. apply empty_false in Hn as He. run_method. now rewrite He.
Qed.

Lemma reserve_run_throws s n :
  exceeds_max_size n = true -> reserve n s = Throw length_error s.
Proof. intros Hmax. run_method. unfold vec_reserve. now rewrite Hmax. Qed.

Lemma reserve_run_within s n :
  exceeds_max_size n = false ->
  n <= cap (vec_ s) -> reserve n s = Return tt s.
Proof.
  intros Hmax Hle. run_method. unfold vec_reserve, reserve_storage, capacity.
  assert (Hltb : (cap (vec_ s) <? n) = false) by (apply Nat.ltb_ge; lia).
  rewrite Hmax, Hltb. cbn. rewrite Nat.eqb_refl. cbn. now rewrite rebuild.
Qed.

Lemma reserve_run s n :
  exceeds_max_size n = false ->
  cap (vec_ s) < n ->
  reserve n s
  = Return tt (RV (signal_emitter s
                     ++ [Reserved (reserve_cap (cap (vec_ s)) n)])
                  (reserve_storage n (vec_ s))).
Proof.
  intros Hmax Hlt. run_method. unfold vec_reserve, reserve_storage, capacity.
  pose proof (reserve_cap_ge (cap (vec_ s)) n Hlt) as Hcap.
  apply Nat.ltb_lt in Hlt as Hltb. rewrite Hmax, Hltb. cbn.
  assert (Hne : (reserve_cap (cap (vec_ s)) n =? cap (vec_ s)) = false)
    by (apply Nat.eqb_neq; lia).
  now rewrite Hne.
Qed.

Lemma resize_run_throws s n f :
  size (vec_ s) < n -> exceeds_max_size n = true ->
  resize n f s = Throw length_error s.
Proof.
  intros Hlt Hmax. run_method. unfold vec_resize.
  apply Nat.ltb_lt in Hlt. now rewrite Hlt, Hmax.
Qed.

Lemma resize_run_same s n f :
  n = size (vec_ s) -> resize n f s = Return tt s.
Proof.
  intros ->. run_method. unfold vec_resize, resize_storage.
  rewrite Nat.ltb_irrefl, Nat.eqb_refl. cbn. now rewrite rebuild.
Qed.

Lemma resize_run s n f :
  n <> size (vec_ s) ->
  (size (vec_ s) <? n) && exceeds_max_size n = false ->
  resize n f s
  = Return tt (RV (signal_emitter s ++ [Resized (size (vec_ s)) n])
                  (resize_storage n f (vec_ s))).
Proof.
  intros Hne Hmax. run_method. unfold vec_resize. rewrite Hmax. cbn.
  apply Nat.eqb_neq in Hne. now rewrite Hne.
Qed.

(** Requests below an accepted request are accepted. *)
Lemma exceeds_max_size_le m n :
  m <= n -> exceeds_max_size n = false -> exceeds_max_size m = false.
Proof. unfold exceeds_max_size. rewrite !N.ltb_ge. lia. Qed.

Lemma update_run_outside s i v :
  size (vec_ s) <= i -> update_if_exists i v s = Return false s.
Proof. intros Hge. run_method. apply Nat.leb_le in Hge. now rewrite Hge. Qed.

Lemma update_run s i old v :
  elems (vec_ s) !! i = Some old ->
  update_if_exists i v s
  = Return true (RV (signal_emitter s ++ [Updated i old v])
                    (Vec (<[i:=v]> (elems (vec_ s))) (cap (vec_ s)))).
Proof.
  intros Hold. pose proof (lookup_lt_Some _ _ _ Hold) as Hlt.
  destruct (update_in_range s i v Hlt) as (old' & Hold' & Hrun).
  rewrite Hrun. congruence.
Qed.

Lemma erase_run_outside s pos : size (vec_ s) <= pos -> erase pos s = Undefined.
Proof.
  intros Hge. run_method. unfold deref, subscript.
  now rewrite (lookup_ge_None_2 (elems (vec_ s)) pos Hge).
Qed.

Lemma erase_run s pos x :
  elems (vec_ s) !! pos = Some x ->
  erase pos s
  = Return pos (RV (signal_emitter s ++ [Erased pos x])
                   (Vec (delete pos (elems (vec_ s))) (cap (vec_ s)))).
Proof.
  intros Hx. pose proof (lookup_lt_Some _ _ _ Hx) as Hlt.
  assert (Hltb : (pos <? size (vec_ s)) = true) by now apply Nat.ltb_lt.
  run_method. unfold deref, subscript, vec_erase, distance, vec_begin.
  rewrite Hx, Hltb. cbn [vec_ signal_emitter]. now rewrite Nat.sub_0_r.
Qed.

Lemma reserve_makes_room s n :
  exceeds_max_size n = false ->
  exists s',
    reserve n s = Return tt s' /\
    n <= capacity (vec_ s') /\
    size (vec_ s') = size (vec_ s).
Proof.
  intros Hmax. destruct (Nat.le_gt_cases n (cap (vec_ s))) as [Hle|Hlt].
  - exists s. split; [now apply reserve_run_within|]. now split.
  - eexists. split; [now apply reserve_run|]. cbn [vec_].
    pose proof (reserve_cap_ge (cap (vec_ s)) n Hlt) as Hcap.
    unfold capacity, size, reserve_storage. apply Nat.ltb_lt in Hlt as Hltb.
    rewrite Hltb. cbn [cap elems]. now split.
Qed.

(** A vector is empty or ends in its back. *)
Lemma elems_snoc s :
  0 < size (vec_ s) -> exists l x, elems (vec_ s) = l ++ [x].
Proof.
  intros Hn. destruct (back_nonempty (vec_ s) Hn) as (x & _ & Hel & _).
  eauto.
Qed.

Lemma call_transition {Args} (construct : Args -> T) (op : operation) s :
  transition s (call construct op s).
Proof.
  destruct op as [r|v|args| | |n|n v|i v|pos]; cbn [call].
  - destruct r as [v|i].
    + rewrite push_back_run. constructor.
    + destruct (elems (vec_ s) !! i) as [x|] eqn:Hx.
      * rewrite (push_back_run_element s i x Hx).
        destruct (push_back_reallocates (vec_ s)); constructor.
      * apply lookup_ge_None_1 in Hx.
        rewrite push_back_run_invalid by assumption. constructor.
  - rewrite push_back_move_run, push_back_run. constructor.
  - unfold mbind, M_bind. rewrite emplace_back_run. cbn. constructor.
  - destruct (Nat.eq_dec (size (vec_ s)) 0) as [Hz|Hnz].
    + rewrite pop_back_run_empty by assumption. constructor.
    + destruct (elems_snoc s) as (l & x & Hel); [lia|].
      rewrite (pop_back_run s l x Hel).
      pose proof (transition_erased s (length l) x) as Ht.
      rewrite Hel, delete_last in Ht. apply Ht.
      now apply list_lookup_middle.
  - destruct (Nat.eq_dec (size (vec_ s)) 0) as [Hz|Hnz].
    + rewrite clear_run_empty by assumption. constructor.
    + rewrite clear_run by lia. constructor. lia.
  - destruct (exceeds_max_size n) eqn:Hmax.
    + rewrite reserve_run_throws by assumption. constructor.
    + destruct (Nat.le_gt_cases n (cap (vec_ s))) as [Hle|Hlt].
      * rewrite reserve_run_within by assumption. constructor.
      * rewrite reserve_run by assumption. now constructor.
  - destruct (Nat.eq_dec n (size (vec_ s))) as [Heq|Hne].
    + rewrite resize_run_same by assumption. constructor.
    + destruct ((size (vec_ s) <? n) && exceeds_max_size n) eqn:Hmax.
      * apply andb_true_iff in Hmax as (Hlt & Hmax).
        apply Nat.ltb_lt in Hlt.
        rewrite resize_run_throws by assumption. constructor.
      * rewrite resize_run by assumption. now constructor.
  - unfold mbind, M_bind.
    destruct (elems (vec_ s) !! i) as [old|] eqn:Hold.
    + rewrite (update_run s i old v Hold). cbn. now constructor.
    + apply lookup_ge_None_1 in Hold.
      rewrite update_run_outside by assumption. cbn. constructor.
  - unfold mbind, M_bind.
    destruct (elems (vec_ s) !! pos) as [x|] eqn:Hx.
    + rewrite (erase_run s pos x Hx). cbn. now constructor.
    + apply lookup_ge_None_1 in Hx.
      rewrite erase_run_outside by assumption. constructor.
Qed.

End Runs.

(** ** More facts about the storage *)

Section StorageGrowth.
Context {T : Type} `{Allocation}.
Implicit Types (w : vector_type T) (value f : T) (i n : nat).

Lemma capacity_push_back_room value w :
  size w < capacity w -> capacity (vec_push_back value w) = capacity w.
Proof.
  unfold capacity, vec_push_back; cbn [cap]. intros Hlt.
  apply Nat.ltb_lt in Hlt. now rewrite Hlt.
Qed.

Lemma capacity_push_back_full value w :
  capacity w <= size w -> capacity w < capacity (vec_push_back value w).
Proof.
  unfold capacity, vec_push_back; cbn [cap]. intros Hge.
  assert (Hltb : (size w <? cap w) = false) by (apply Nat.ltb_ge; lia).
  rewrite Hltb. pose proof (grow_cap_ge (cap w) (size w) (S (size w))). lia.
Qed.

Lemma capacity_push_back_ge value w :
  capacity w <= capacity (vec_push_back value w).
Proof.
  destruct (Nat.lt_ge_cases (size w) (capacity w)) as [Hlt|Hge].
  - now rewrite capacity_push_back_room.
  - pose proof (capacity_push_back_full value w Hge). lia.
Qed.

Lemma capacity_reserve_ge n w : capacity w <= capacity (reserve_storage n w).
Proof.
  unfold capacity, reserve_storage.
  destruct (Nat.ltb_spec (cap w) n) as [Hlt|Hge]; cbn [cap]; [|lia].
  pose proof (reserve_cap_ge (cap w) n Hlt). lia.
Qed.

Lemma capacity_resize_ge n value w :
  capacity w <= capacity (resize_storage n value w).
Proof.
  unfold capacity, resize_storage.
  destruct (Nat.ltb_spec (size w) n) as [Hgrow|Hle]; cbn [cap].
  - destruct (Nat.leb_spec n (cap w)) as [Hfit|Hout]; [lia|].
    pose proof (grow_cap_ge (cap w) (size w) n Hout). lia.
  - destruct (Nat.ltb_spec n (size w)); cbn [cap]; lia.
Qed.

Lemma elems_resize n value w :
  elems (resize_storage n value w)
  = take n (elems w) ++ replicate (n - size w) value.
Proof.
  unfold resize_storage, size.
  destruct (Nat.ltb_spec (length (elems w)) n) as [Hgrow|Hle]; cbn [elems].
  - now rewrite take_ge by lia.
  - replace (n - length (elems w)) with 0 by lia. cbn [replicate].
    rewrite app_nil_r.
    destruct (Nat.ltb_spec n (length (elems w))) as [Hshrink|Hge];
      cbn [elems]; [reflexivity|].
    now rewrite take_ge by lia.
Qed.

Lemma size_resize n value w : size (resize_storage n value w) = n.
Proof.
  unfold size. rewrite elems_resize, length_app, length_take,
    length_replicate. unfold size. lia.
Qed.

Lemma lookup_resize_old n value w i :
  i < n -> i < size w -> elems (resize_storage n value w) !! i = elems w !! i.
Proof.
  intros Hn Hi. rewrite elems_resize, lookup_app_l.
  - now apply lookup_take_lt.
  - rewrite length_take. unfold size in Hi. lia.
Qed.

Lemma lookup_resize_new n value w i :
  size w <= i -> i < n -> elems (resize_storage n value w) !! i = Some value.
Proof.
  unfold size. intros Hi Hn. rewrite elems_resize, lookup_app_r.
  - apply lookup_replicate_2. rewrite length_take. unfold size. lia.
  - rewrite length_take. lia.
Qed.

End StorageGrowth.

(** ** Construction, access and composition *)

Section Composition.
Context {T : Type} `{Allocation}.
Implicit Types (s : ReactiveVector T) (v w value f : T) (i j n : nat).

(** X1: [emplace_back(args...)] returns the element built from [args],
    which is then the last element, with exactly one [Inserted] signal at
    index = old size.  The object it leaves is the one the rvalue overload
    of [push_back] leaves for that element, and the one the [const T&]
    overload leaves when given an object outside the vector. *)
Theorem emplace_back_constructs_at_the_end {Args} (construct : Args -> T)
    (args : Args) s :
  exists s',
    emplace_back construct args s = Return (construct args) s' /\
    push_back_move (construct args) s = Return tt s' /\
    push_back (Outside (construct args)) s = Return tt s' /\
    elems (vec_ s') = elems (vec_ s) ++ [construct args] /\
    size (vec_ s') = size (vec_ s) + 1 /\
    signal_emitter s' =
      signal_emitter s ++ [Inserted (size (vec_ s)) (construct args)].
Proof.
  eexists. split; [apply emplace_back_run|].
  split; [rewrite push_back_move_run; apply push_back_run|].
  split; [apply push_back_run|].
  cbn [vec_ signal_emitter]. rewrite size_push_back.
  split; [reflexivity|]. split; [lia|reflexivity].
Qed.

(** X2: the constructors emit nothing.  A default-constructed vector is
    empty, so [at] throws at every index; one constructed from [n] copies
    of [v] has size [n] and [at] returns [v] below [n] and throws from [n]
    on; one constructed from a list holds that list. *)
Theorem constructors_fill_without_emitting n v (init : list T) i :
  (signal_emitter (new_default (T := T)) = [] /\
   size (vec_ (new_default (T := T))) = 0 /\
   rv_at i (new_default (T := T)) = Throw out_of_range new_default) /\
  (signal_emitter (new_fill n v) = [] /\
   size (vec_ (new_fill n v)) = n /\
   (i < n -> rv_at i (new_fill n v) = Return v (new_fill n v)) /\
   (n <= i -> rv_at i (new_fill n v) = Throw out_of_range (new_fill n v))) /\
  (signal_emitter (new_init init) = [] /\
   elems (vec_ (new_init init)) = init /\
   size (vec_ (new_init init)) = length init).
Proof.
  assert (Hsz : size (vec_ (new_fill n v)) = n)
    by (unfold size; cbn; apply length_replicate).
  split; [|split].
  - repeat split.
  - split; [reflexivity|]. split; [exact Hsz|]. split.
    + intros Hi. run_method. unfold at_. rewrite Hsz.
      assert (Hleb : (n <=? i) = false) by now apply Nat.leb_gt.
      rewrite Hleb. unfold subscript.
      change (elems (vec_ (new_fill n v))) with (replicate n v).
      now rewrite lookup_replicate_2.
    + intros Hi. run_method. unfold at_. rewrite Hsz.
      apply Nat.leb_le in Hi. now rewrite Hi.
  - repeat split.
Qed.

(** X3: the two indexed reads.  In range, the unchecked subscript and the
    checked [at] return the same element and change nothing.  Out of
    range they differ: [at] throws [out_of_range] and leaves the object as
    it was, the subscript has no defined outcome. *)
Theorem subscript_and_at_differ_only_out_of_range s i :
  (i < size (vec_ s) ->
   exists x,
     elems (vec_ s) !! i = Some x /\
     rv_subscript i s = Return x s /\
     rv_at i s = Return x s) /\
  (size (vec_ s) <= i ->
   rv_subscript i s = Undefined /\ rv_at i s = Throw out_of_range s).
Proof.
  split.
  - intros Hlt. destruct (subscript_lt i (vec_ s) Hlt) as (x & Hx & Hsub).
    exists x. split; [assumption|]. run_method. unfold at_.
    assert (Hleb : (size (vec_ s) <=? i) = false) by now apply Nat.leb_gt.
    now rewrite Hleb, Hsub.
  - intros Hge. run_method. unfold at_, subscript.
    rewrite (lookup_ge_None_2 (elems (vec_ s)) i Hge).
    apply Nat.leb_le in Hge. now rewrite Hge.
Qed.

(** X4: [push_back] of an argument that refers to [v], followed by
    [pop_back()], gives back the elements there were; the capacity may
    have grown but not shrunk; and both calls are reported, with the same
    index.  The second signal is [Erased] with value [v].  The first is
    [Inserted] with value [v], except when the argument was an element of
    the vector and the storage moved: then it is delivered dangling. *)
Theorem push_back_then_pop_back_restores_elements s (r : cref T) v :
  load r (vec_ s) = Ok v ->
  exists s' sig,
    (push_back r;; pop_back) s = Return tt s' /\
    elems (vec_ s') = elems (vec_ s) /\
    capacity (vec_ s) <= capacity (vec_ s') /\
    signal_emitter s' =
      signal_emitter s ++ [sig; Erased (size (vec_ s)) v] /\
    ((sig = Inserted (size (vec_ s)) v /\
      ((exists x, r = Outside x) \/ push_back_reallocates (vec_ s) = false)) \/
     (sig = InsertedDangling (size (vec_ s)) /\
      (exists i, r = Element i) /\ push_back_reallocates (vec_ s) = true)).
Proof.
  intros Hload. destruct (push_back_run_any s r v Hload) as (sig & Hrun & Hsig).
  eexists. exists sig. split.
  - unfold mbind at 1, M_bind at 1. rewrite Hrun.
    apply (pop_back_run _ (elems (vec_ s)) v). reflexivity.
  - cbn [vec_ signal_emitter elems]. split; [reflexivity|]. split.
    + apply (capacity_push_back_ge v (vec_ s)).
    + split; [now rewrite <- app_assoc|assumption].
Qed.

(** X5: after [push_back] of [v], [at(old size)] returns [v], and [at] at
    every index that could be read before returns what it returned
    before.  This holds for an argument outside the vector and also for
    an argument that is an element of the vector, whether or not the
    storage moves. *)
Theorem push_back_then_at_reads_it_back s v :
  (exists s',
     push_back (Outside v) s = Return tt s' /\
     rv_at (size (vec_ s)) s' = Return v s' /\
     (forall i x, rv_at i s = Return x s -> rv_at i s' = Return x s')) /\
  (forall j,
     elems (vec_ s) !! j = Some v ->
     exists s',
       push_back (Element j) s = Return tt s' /\
       rv_at (size (vec_ s)) s' = Return v s' /\
       (forall i x, rv_at i s = Return x s -> rv_at i s' = Return x s')).
Proof.
  assert (Hat : forall s0 i x,
            elems (vec_ s0) !! i = Some x -> rv_at i s0 = Return x s0).
  { intros s0 i x Hx. pose proof (lookup_lt_Some _ _ _ Hx) as Hlt.
    run_method. unfold at_, subscript.
    assert (Hleb : (size (vec_ s0) <=? i) = false) by now apply Nat.leb_gt.
    now rewrite Hleb, Hx. }
  assert (Hany : forall (r : cref T),
            load r (vec_ s) = Ok v ->
            exists s',
              push_back r s = Return tt s' /\
              rv_at (size (vec_ s)) s' = Return v s' /\
              (forall i x, rv_at i s = Return x s -> rv_at i s' = Return x s')).
  { intros r Hload.
    destruct (push_back_run_any s r v Hload) as (sig & Hrun & _).
    eexists. split; [exact Hrun|]. split.
    - apply Hat. cbn. now apply list_lookup_middle.
    - intros i x Hread. apply Hat. cbn. apply lookup_app_l_Some.
      revert Hread. run_method. unfold at_, subscript.
      destruct (size (vec_ s) <=? i); [discriminate|].
      destruct (elems (vec_ s) !! i); [|discriminate]. now intros [= ->]. }
  split.
  - now apply (Hany (Outside v)).
  - intros j Hj. apply (Hany (Element j)). cbn. unfold subscript.
    now rewrite Hj.
Qed.

(** X6: two updates of the same index compose: the second [Updated]
    signal carries as old value the value the first one stored, and the
    element ends as the second value. *)
Theorem update_twice_reports_the_first_value s i v w :
  i < size (vec_ s) ->
  exists old s',
    elems (vec_ s) !! i = Some old /\
    (update_if_exists i v;; update_if_exists i w) s = Return true s' /\
    elems (vec_ s') = <[i:=w]> (elems (vec_ s)) /\
    signal_emitter s' =
      signal_emitter s ++ [Updated i old v; Updated i v w].
Proof.
  intros Hlt. destruct (subscript_lt i (vec_ s) Hlt) as (old & Hold & _).
  exists old. eexists. split; [assumption|]. split.
  - unfold mbind at 1, M_bind at 1. rewrite (update_run s i old v Hold).
    apply update_run. cbn. now apply list_lookup_insert_eq.
  - cbn [vec_ signal_emitter elems]. split.
    + apply list_insert_insert_eq.
    + now rewrite <- app_assoc.
Qed.

(** X7: [update_if_exists] does not compare values: storing the value an
    element already has leaves the storage as it was and still emits
    [Updated], with old value = new value. *)
Theorem update_with_the_same_value_still_emits s i x :
  elems (vec_ s) !! i = Some x ->
  exists s',
    update_if_exists i x s = Return true s' /\
    vec_ s' = vec_ s /\
    signal_emitter s' = signal_emitter s ++ [Updated i x x].
Proof.
  intros Hx. eexists. split; [apply (update_run s i x x Hx)|].
  cbn [vec_ signal_emitter]. split; [|reflexivity].
  rewrite (list_insert_id _ _ _ Hx). now destruct (vec_ s).
Qed.

End Composition.

(** ** Signals against changes, over one call and over many *)

(** Replaces a returning call by the shapes it can have. *)
Ltac call_shapes Hcall :=
  lazymatch type of Hcall with
  | call ?c ?op ?s = Return tt ?s' =>
      let Ht := fresh "Ht" in
      pose proof (call_transition c op s) as Ht;
      rewrite Hcall in Ht; inversion Ht; subst; clear Ht
  end.

Section Signals.
Context {T : Type} `{Allocation} {Args : Type} (construct : Args -> T).
Implicit Types (s : ReactiveVector T) (sig : Signal T).
Implicit Types (op : @operation T Args) (ops : list (@operation T Args)).

Lemma snoc_not_self {A} (l : list A) (a : A) : l ++ [a] <> l.
Proof.
  intros Heq. apply (f_equal length) in Heq.
  rewrite length_app in Heq. cbn in Heq. lia.
Qed.

Lemma snoc_signal_inj {A} (l : list A) (a b : A) :
  l ++ [a] = l ++ [b] -> a = b.
Proof. intros Heq. apply app_inv_head in Heq. congruence. Qed.

Lemma call_step op s s' :
  call construct op s = Return tt s' ->
  capacity (vec_ s) <= capacity (vec_ s') /\
  (s' = s \/ exists sig, signal_emitter s' = signal_emitter s ++ [sig]).
Proof.
  intros Hcall. call_shapes Hcall; cbn [vec_ signal_emitter];
    (split; [|solve [now left | right; eauto]]).
  - lia.
  - apply capacity_push_back_ge.
  - apply capacity_push_back_ge.
  - reflexivity.
  - reflexivity.
  - apply capacity_reserve_ge.
  - apply capacity_resize_ge.
  - reflexivity.
Qed.

Lemma calls_cons op ops s s' :
  calls construct (op :: ops) s = Return tt s' ->
  exists s1,
    call construct op s = Return tt s1 /\
    calls construct ops s1 = Return tt s'.
Proof.
  cbn [calls]. unfold mbind, M_bind.
  destruct (call construct op s) as [[] s1| |]; try discriminate. eauto.
Qed.

Lemma calls_nil s s' : calls construct [] s = Return tt s' -> s' = s.
Proof. now intros [= ->]. Qed.

(** X8: every signal that can be read tells the truth about the call that
    emitted it.  Whatever the operation, if the call returned and added
    [sig] to the emitter, then: [Inserted] names the old size and its
    value was appended; an [Inserted] delivered dangling still names the
    old size, and one element was appended, which the signal cannot
    tell; [Updated] names a valid index, the element that was there and
    the one that replaced it; [Erased] names a valid index and the element
    that was removed from it; [Cleared] comes from a non-empty vector that
    is now empty; [Reserved] carries the new, larger capacity and the
    elements are untouched; [Resized] carries the old and the new size,
    which differ, and the elements below both are untouched. *)
Theorem every_signal_describes_its_change op s s' sig :
  call construct op s = Return tt s' ->
  signal_emitter s' = signal_emitter s ++ [sig] ->
  match sig with
  | Inserted i v =>
      i = size (vec_ s) /\ elems (vec_ s') = elems (vec_ s) ++ [v]
  | InsertedDangling i =>
      i = size (vec_ s) /\ exists v, elems (vec_ s') = elems (vec_ s) ++ [v]
  | Updated i old new =>
      elems (vec_ s) !! i = Some old /\
      elems (vec_ s') = <[i:=new]> (elems (vec_ s))
  | Erased i old =>
      elems (vec_ s) !! i = Some old /\
      elems (vec_ s') = delete i (elems (vec_ s))
  | Cleared => 0 < size (vec_ s) /\ elems (vec_ s') = []
  | Reserved c =>
      capacity (vec_ s) < c /\ capacity (vec_ s') = c /\
      elems (vec_ s') = elems (vec_ s)
  | Resized a b =>
      a = size (vec_ s) /\ b = size (vec_ s') /\ a <> b /\
      forall i, i < a -> i < b -> elems (vec_ s') !! i = elems (vec_ s) !! i
  end.
Proof.
  intros Hcall Hlog. call_shapes Hcall; cbn [vec_ signal_emitter] in Hlog.
  - symmetry in Hlog. now apply snoc_not_self in Hlog.
  - apply snoc_signal_inj in Hlog as <-. now split.
  - apply snoc_signal_inj in Hlog as <-. split; [reflexivity|]. cbn. eauto.
  - apply snoc_signal_inj in Hlog as <-. now split.
  - apply snoc_signal_inj in Hlog as <-. now split.
  - apply snoc_signal_inj in Hlog as <-. cbn [vec_].
    match goal with Hlt : cap _ < _ |- _ =>
      pose proof (reserve_cap_ge _ _ Hlt) as Hcap;
      apply Nat.ltb_lt in Hlt as Hltb
    end.
    unfold capacity, reserve_storage. rewrite Hltb. cbn [cap elems].
    split; [lia|]. now split.
  - apply snoc_signal_inj in Hlog as <-. cbn [vec_].
    rewrite size_resize. split; [reflexivity|]. split; [reflexivity|].
    split; [congruence|]. intros i Hi Hn. now apply lookup_resize_old.
  - apply snoc_signal_inj in Hlog as <-. now split.
Qed.

(** X9: signals are only ever added at the end, and at most one per call:
    after any sequence of calls that returns, the emitter holds what it
    held before followed by no more signals than there were calls. *)
Theorem calls_append_at_most_one_signal_each ops s s' :
  calls construct ops s = Return tt s' ->
  exists new,
    signal_emitter s' = signal_emitter s ++ new /\
    length new <= length ops.
Proof.
  revert s. induction ops as [|op ops IH]; intros s Hrun.
  - apply calls_nil in Hrun as ->. exists []. split; [|reflexivity].
    now rewrite app_nil_r.
  - apply calls_cons in Hrun as (s1 & Hcall & Hrest).
    destruct (IH s1 Hrest) as (new & Hlog & Hlen).
    destruct (call_step op s s1 Hcall) as (_ & [-> | (sig & Hsig)]).
    + exists new. split; [assumption|]. cbn. lia.
    + exists (sig :: new). split; [|cbn; lia].
      rewrite Hlog, Hsig, <- app_assoc. reflexivity.
Qed.

(** X10: nothing changes in silence.  If a sequence of calls returned and
    the emitter holds what it held before, then the object is what it was
    before: same elements, same capacity. *)
Theorem calls_without_signal_change_nothing ops s s' :
  calls construct ops s = Return tt s' ->
  signal_emitter s' = signal_emitter s ->
  s' = s.
Proof.
  intros Hrun Hlog.
  assert (Hgen : forall ops s s',
            calls construct ops s = Return tt s' ->
            length (signal_emitter s) <= length (signal_emitter s') /\
            (length (signal_emitter s') = length (signal_emitter s) ->
             s' = s)).
  { clear. intros ops. induction ops as [|op ops IH]; intros s s' Hrun.
    - apply calls_nil in Hrun as ->. split; [lia|reflexivity].
    - apply calls_cons in Hrun as (s1 & Hcall & Hrest).
      destruct (IH s1 s' Hrest) as (Hle & Hsame).
      destruct (call_step op s s1 Hcall) as (_ & [-> | (sig & Hsig)]).
      + now split.
      + rewrite Hsig, length_app in Hle, Hsame. cbn in Hle, Hsame.
        split; lia. }
  apply (Hgen ops s s' Hrun). now rewrite Hlog.
Qed.

(** X11: no operation of the class gives capacity back: over any sequence
    of calls that returns, the capacity at the end is at least the
    capacity at the start, also across [clear], [pop_back], [erase] and a
    shrinking [resize]. *)
Theorem calls_never_shrink_capacity ops s s' :
  calls construct ops s = Return tt s' ->
  capacity (vec_ s) <= capacity (vec_ s').
Proof.
  revert s. induction ops as [|op ops IH]; intros s Hrun.
  - now apply calls_nil in Hrun as ->.
  - apply calls_cons in Hrun as (s1 & Hcall & Hrest).
    destruct (call_step op s s1 Hcall) as (Hcap & _).
    specialize (IH s1 Hrest). lia.
Qed.

End Signals.

(** ** Edges, no-ops and guards *)

Section Edges.
Context {T : Type} `{Allocation}.
Implicit Types (s : ReactiveVector T) (v w value f g : T) (i j n m : nat).

(** X12: on a non-empty vector, erasing at the last position is
    [pop_back()]: both leave the same object, with the same [Erased]
    signal, and the iterator [erase] returns is the new [end()]. *)
Theorem erase_of_the_last_element_is_pop_back s :
  0 < size (vec_ s) ->
  exists s',
    pop_back s = Return tt s' /\
    erase (size (vec_ s) - 1) s = Return (size (vec_ s) - 1) s' /\
    rv_end s' = Return (size (vec_ s) - 1) s'.
Proof.
  intros Hn. destruct (elems_snoc s Hn) as (l & x & Hel).
  assert (Hsz : size (vec_ s) - 1 = length l).
  { unfold size. rewrite Hel, length_app. cbn. lia. }
  eexists. split; [apply (pop_back_run s l x Hel)|]. rewrite Hsz. split.
  - rewrite (erase_run s (length l) x).
    + now rewrite Hel, delete_last.
    + rewrite Hel. now apply list_lookup_middle.
  - reflexivity.
Qed.

(** X13: [erase] at the two ends of the range.  At [begin()] of a
    non-empty vector it removes the first element, emits [Erased] with
    index 0 and returns [begin()].  At [end()] there is no element and no
    guard: the call has no defined outcome, on every vector, the empty one
    included. *)
Theorem erase_at_begin_and_at_end s :
  (forall x l,
     elems (vec_ s) = x :: l ->
     (b ← rv_begin; erase b) s
     = Return 0 (RV (signal_emitter s ++ [Erased 0 x])
                    (Vec l (cap (vec_ s))))) /\
  (e ← rv_end; erase e) s = Undefined.
Proof.
  split.
  - intros x l Hel. unfold mbind, M_bind, rv_begin, read, vec_begin.
    rewrite (erase_run s 0 x) by now rewrite Hel. now rewrite Hel.
  - unfold mbind, M_bind, rv_end, read, vec_end.
    now apply erase_run_outside.
Qed.

(** X14: [clear()] keeps the capacity, and what follows on the emptied
    vector is silent: a second [clear()], [pop_back()], [resize(0)] and
    [update_if_exists] at any index return without a signal and without a
    change, the last one with [false]. *)
Theorem after_clear_the_noops_are_silent s :
  exists s',
    clear s = Return tt s' /\
    size (vec_ s') = 0 /\
    capacity (vec_ s') = capacity (vec_ s) /\
    clear s' = Return tt s' /\
    pop_back s' = Return tt s' /\
    (forall f, resize 0 f s' = Return tt s') /\
    (forall i v, update_if_exists i v s' = Return false s').
Proof.
  assert (Hgoal : forall s', size (vec_ s') = 0 ->
            clear s' = Return tt s' /\
            pop_back s' = Return tt s' /\
            (forall f, resize 0 f s' = Return tt s') /\
            (forall i v, update_if_exists i v s' = Return false s')).
  { intros s' Hz. split; [now apply clear_run_empty|].
    split; [now apply pop_back_run_empty|]. split.
    - intros f. now apply resize_run_same.
    - intros i v. apply update_run_outside. lia. }
  destruct (Nat.eq_dec (size (vec_ s)) 0) as [Hz|Hnz].
  - exists s. split; [now apply clear_run_empty|]. split; [assumption|].
    split; [reflexivity|]. now apply Hgoal.
  - eexists. split; [apply clear_run; lia|]. split; [reflexivity|].
    split; [reflexivity|]. now apply Hgoal.
Qed.

(** X15: a [reserve] that is accepted absorbs every request that is not
    larger: after [reserve(n)] with [n] within [max_size()], [reserve(m)]
    with [m <= n] returns without a signal and without a change; in
    particular a repeated [reserve(n)] emits at most once.  A [reserve]
    beyond [max_size()] throws and reserves nothing. *)
Theorem reserve_absorbs_smaller_requests s n :
  (exceeds_max_size n = false ->
   exists s',
     reserve n s = Return tt s' /\
     (forall m, m <= n -> reserve m s' = Return tt s')) /\
  (exceeds_max_size n = true -> reserve n s = Throw length_error s).
Proof.
  split; [|apply reserve_run_throws].
  intros Hmax. destruct (Nat.le_gt_cases n (cap (vec_ s))) as [Hle|Hlt].
  - exists s. split; [now apply reserve_run_within|].
    intros m Hm. apply reserve_run_within; [|lia].
    now apply (exceeds_max_size_le m n).
  - eexists. split; [now apply reserve_run|].
    intros m Hm. apply reserve_run_within.
    + now apply (exceeds_max_size_le m n).
    + cbn [vec_]. pose proof (reserve_cap_ge (cap (vec_ s)) n Hlt) as Hcap.
      unfold reserve_storage. apply Nat.ltb_lt in Hlt as Hltb.
      rewrite Hltb. cbn [cap]. lia.
Qed.

(** X16: a [resize(n, f)] that does not have to grow beyond [max_size()]
    ends with size [n]: the elements below both the old size and [n]
    stay, the slots from the old size up to [n] hold [f], and there is
    nothing from [n] on.  Resizing again to [n], with any fill value,
    returns without a signal and without a change. *)
Theorem resize_sets_the_size_and_is_idempotent s n f :
  (size (vec_ s) < n -> exceeds_max_size n = false) ->
  exists s',
    resize n f s = Return tt s' /\
    size (vec_ s') = n /\
    (forall i, i < n -> i < size (vec_ s) ->
               elems (vec_ s') !! i = elems (vec_ s) !! i) /\
    (forall i, size (vec_ s) <= i -> i < n ->
               elems (vec_ s') !! i = Some f) /\
    (forall i, n <= i -> elems (vec_ s') !! i = None) /\
    (forall g, resize n g s' = Return tt s').
Proof.
  intros Hmax. destruct (Nat.eq_dec n (size (vec_ s))) as [Heq|Hne].
  - exists s. split; [now apply resize_run_same|]. split; [now symmetry|].
    split; [reflexivity|]. split; [lia|]. split.
    + intros i Hi. apply lookup_ge_None_2. unfold size in Heq. lia.
    + intros g. now apply resize_run_same.
  - eexists. split.
    { apply resize_run; [assumption|].
      destruct (Nat.ltb_spec (size (vec_ s)) n) as [Hlt|Hge];
        [now rewrite Hmax|reflexivity]. }
    cbn [vec_].
    split; [apply size_resize|]. split; [|split; [|split]].
    + intros i Hi Hs. now apply lookup_resize_old.
    + intros i Hs Hi. now apply lookup_resize_new.
    + intros i Hi. apply lookup_ge_None_2.
      pose proof (size_resize n f (vec_ s)) as Hsz. unfold size in Hsz. lia.
    + intros g. apply resize_run_same. cbn [vec_]. now rewrite size_resize.
Qed.

(** X17: [resize(0)] and [clear()] empty a non-empty vector in the same
    way, the same storage results, but they report it differently:
    [resize(0)] emits [Resized] with the old size and 0, [clear()] emits
    [Cleared]. *)
Theorem resize_to_zero_is_not_reported_as_clear s f :
  0 < size (vec_ s) ->
  exists s1 s2,
    resize 0 f s = Return tt s1 /\
    clear s = Return tt s2 /\
    vec_ s1 = vec_ s2 /\
    signal_emitter s1 = signal_emitter s ++ [Resized (size (vec_ s)) 0] /\
    signal_emitter s2 = signal_emitter s ++ [Cleared].
Proof.
  intros Hn. eexists. eexists.
  split; [apply resize_run; [lia|reflexivity]|].
  split; [now apply clear_run|].
  cbn [vec_ signal_emitter]. split; [|now split].
  unfold resize_storage, vec_clear. apply Nat.ltb_lt in Hn as Hltb.
  change (size (vec_ s) <? 0) with false. now rewrite Hltb.
Qed.

(** X18: growth of the capacity caused by [push_back] is not reported.
    For an argument that refers to [v] the call emits exactly one signal,
    its [Inserted] signal, possibly delivered dangling, and no [Reserved].
    When there was room the capacity stays and the signal carries [v];
    when the vector was full the capacity grows. *)
Theorem push_back_grows_capacity_unreported s (r : cref T) v :
  load r (vec_ s) = Ok v ->
  exists s' sig,
    push_back r s = Return tt s' /\
    signal_emitter s' = signal_emitter s ++ [sig] /\
    (sig = Inserted (size (vec_ s)) v \/
     sig = InsertedDangling (size (vec_ s))) /\
    (size (vec_ s) < capacity (vec_ s) ->
       capacity (vec_ s') = capacity (vec_ s) /\
       sig = Inserted (size (vec_ s)) v) /\
    (capacity (vec_ s) <= size (vec_ s) ->
       capacity (vec_ s) < capacity (vec_ s')).
Proof.
  intros Hload.
  destruct (push_back_run_any s r v Hload) as (sig & Hrun & Hsig).
  eexists. exists sig. split; [exact Hrun|]. cbn [vec_ signal_emitter].
  split; [reflexivity|]. split; [|split].
  - destruct Hsig as [(-> & _) | (-> & _)]; [now left|now right].
  - intros Hroom. split; [now apply capacity_push_back_room|].
    destruct Hsig as [(-> & _) | (_ & _ & Hmoved)]; [reflexivity|].
    unfold push_back_reallocates, capacity in *.
    apply Nat.ltb_lt in Hroom. rewrite Hroom in Hmoved. discriminate.
  - apply capacity_push_back_full.
Qed.

(** X19: the guards are enough.  Take any mutating call except
    [push_back] of an element of the vector itself.  It never ends in the
    out-of-range exception; it throws only [length_error], only from
    [reserve] and a growing [resize] whose argument is beyond
    [max_size()], and then the object is as before.  Its outcome is
    undefined in exactly one case, [erase] at a position at or beyond
    [end()].  In every other case it returns: the [empty()] guards of
    [pop_back] and [clear] and the index check of [update_if_exists] keep
    the storage preconditions. *)
Theorem only_erase_past_the_end_is_undefined {Args} (construct : Args -> T)
    (op : operation) s :
  (forall i, op <> PushBack (Element i)) ->
  (forall e s',
     call construct op s = Throw e s' ->
     e = length_error /\ s' = s /\
     ((exists n, op = Reserve n /\ exceeds_max_size n = true) \/
      (exists n f, op = Resize n f /\ size (vec_ s) < n /\
                   exceeds_max_size n = true))) /\
  (call construct op s = Undefined <->
   exists pos, op = Erase pos /\ size (vec_ s) <= pos) /\
  ((forall e s', call construct op s <> Throw e s') ->
   call construct op s <> Undefined ->
   exists s', call construct op s = Return tt s').
Proof.
  intros Hnot.
  assert (Hshape : (exists s', call construct op s = Return tt s') \/
                   (call construct op s = Throw length_error s /\
                    ((exists n, op = Reserve n /\
                                exceeds_max_size n = true) \/
                     (exists n f, op = Resize n f /\ size (vec_ s) < n /\
                                  exceeds_max_size n = true))) \/
                   (call construct op s = Undefined /\
                    exists pos, op = Erase pos /\ size (vec_ s) <= pos)).
  { destruct op as [r|v|args| | |n|n v|i v|pos]; cbn [call].
    - left. destruct r as [v|i]; [|now destruct (Hnot i)].
      rewrite push_back_run. eauto.
    - left. rewrite push_back_move_run, push_back_run. eauto.
    - left. unfold mbind, M_bind. rewrite emplace_back_run. cbn. eauto.
    - left. destruct (Nat.eq_dec (size (vec_ s)) 0) as [Hz|Hnz].
      + rewrite pop_back_run_empty by assumption. eauto.
      + destruct (elems_snoc s) as (l & x & Hel); [lia|].
        rewrite (pop_back_run s l x Hel). eauto.
    - left. destruct (Nat.eq_dec (size (vec_ s)) 0) as [Hz|Hnz].
      + rewrite clear_run_empty by assumption. eauto.
      + rewrite clear_run by lia. eauto.
    - destruct (exceeds_max_size n) eqn:Hmax.
      + right. left. rewrite reserve_run_throws by assumption. eauto.
      + left. destruct (Nat.le_gt_cases n (cap (vec_ s))) as [Hle|Hlt].
        * rewrite reserve_run_within by assumption. eauto.
        * rewrite reserve_run by assumption. eauto.
    - destruct (Nat.eq_dec n (size (vec_ s))) as [Heq|Hne].
      + left. rewrite resize_run_same by assumption. eauto.
      + destruct ((size (vec_ s) <? n) && exceeds_max_size n) eqn:Hmax.
        * right. left. apply andb_true_iff in Hmax as (Hlt & Hmax).
          apply Nat.ltb_lt in Hlt.
          rewrite resize_run_throws by assumption. eauto 8.
        * left. rewrite resize_run by assumption. eauto.
    - left. unfold mbind, M_bind.
      destruct (elems (vec_ s) !! i) as [old|] eqn:Hold.
      + rewrite (update_run s i old v Hold). cbn. eauto.
      + apply lookup_ge_None_1 in Hold.
        rewrite update_run_outside by assumption. cbn. eauto.
    - unfold mbind, M_bind.
      destruct (elems (vec_ s) !! pos) as [x|] eqn:Hx.
      + left. rewrite (erase_run s pos x Hx). cbn. eauto.
      + right. right. apply lookup_ge_None_1 in Hx.
        rewrite erase_run_outside by assumption. eauto. }
  split; [|split].
  - intros e s' Hthrow.
    destruct Hshape as [(s1 & Hret) | [(Hexn & Hwhy) | (Hub & _)]];
      [congruence| |congruence].
    rewrite Hexn in Hthrow. injection Hthrow as <- <-. now split.
  - split.
    + intros Hub.
      destruct Hshape as [(s1 & Hret) | [(Hexn & _) | (_ & Hpos)]];
        [congruence|congruence|assumption].
    + intros (pos & -> & Hge). cbn [call]. unfold mbind, M_bind.
      now rewrite erase_run_outside.
  - intros Hnothrow Hdef.
    destruct Hshape as [Hret | [(Hexn & _) | (Hub & _)]];
      [assumption| |contradiction].
    now destruct (Hnothrow length_error s).
Qed.

(** X20: a [Resized] signal does not carry the fill value.  Growing the
    same vector to the same size, within [max_size()], with two different
    fill values emits the same signal and leaves different elements, so
    the signals alone do not determine the contents. *)
Theorem resized_does_not_carry_the_fill_value s n f g :
  size (vec_ s) < n ->
  exceeds_max_size n = false ->
  f <> g ->
  exists s1 s2,
    resize n f s = Return tt s1 /\
    resize n g s = Return tt s2 /\
    signal_emitter s1 = signal_emitter s2 /\
    elems (vec_ s1) <> elems (vec_ s2).
Proof.
  intros Hlt Hmax Hfg. eexists. eexists.
  assert (Hok : (size (vec_ s) <? n) && exceeds_max_size n = false)
    by (rewrite Hmax; apply andb_false_r).
  split; [apply resize_run; [lia|assumption]|].
  split; [apply resize_run; [lia|assumption]|].
  cbn [vec_ signal_emitter]. split; [reflexivity|].
  intros Heq. apply (f_equal (fun l => l !! size (vec_ s))) in Heq.
  rewrite !lookup_resize_new in Heq by lia. congruence.
Qed.

End Edges.

(** ** Sequences of calls on the whole vector *)

Section WholeVector.
Context {T : Type} `{Allocation} {Args : Type} (construct : Args -> T).
Implicit Types (s : ReactiveVector T) (v : T) (n : nat) (l : list T).

(** X21: [reserve] makes room.  After [reserve(n)] with [n] within
    [max_size()], a [push_back] on a vector with fewer than [n] elements
    leaves the capacity as [reserve] left it. *)
Theorem push_back_after_reserve_keeps_capacity s n v :
  exceeds_max_size n = false ->
  exists s1,
    reserve n s = Return tt s1 /\
    (size (vec_ s) < n ->
     exists s2,
       push_back (Outside v) s1 = Return tt s2 /\
       capacity (vec_ s2) = capacity (vec_ s1)).
Proof.
  intros Hmax.
  destruct (reserve_makes_room s n Hmax) as (s1 & Hrun & Hcap & Hsz).
  exists s1. split; [assumption|]. intros Hlt.
  eexists. split; [apply push_back_run|]. cbn [vec_].
  apply capacity_push_back_room. lia.
Qed.

(** X22: popping every element reports them one by one, last to first.
    As many [pop_back()] calls as the vector has elements leave it empty,
    with the capacity it had, and emit one [Erased] signal per element, in
    descending index order, each with its index and value; [clear()] on
    the same vector would have emitted a single [Cleared]. *)
Theorem pop_back_of_everything_reports_each_element s :
  calls construct (replicate (size (vec_ s)) PopBack) s
  = Return tt (RV (signal_emitter s ++ reverse (imap Erased (elems (vec_ s))))
                  (Vec [] (cap (vec_ s)))).
Proof.
  unfold size. remember (elems (vec_ s)) as l eqn:Hel. symmetry in Hel.
  revert s Hel. induction l as [|x l IH] using rev_ind; intros s Hel.
  - cbn. rewrite app_nil_r. destruct s as [e [el c]]. cbn in Hel.
    now subst.
  - rewrite length_app, Nat.add_1_r, replicate_S. cbn [calls].
    unfold mbind at 1, M_bind at 1. cbn [call].
    rewrite (pop_back_run s l x Hel).
    rewrite (IH (RV (signal_emitter s ++ [Erased (length l) x])
                    (Vec l (cap (vec_ s)))) eq_refl).
    cbn [vec_ signal_emitter cap].
    rewrite imap_app, reverse_app. cbn [imap reverse].
    rewrite Nat.add_0_r, <- app_assoc. reflexivity.
Qed.

End WholeVector.

(** ** Concrete runs of the properties with a precondition *)

Lemma update_twice_witness :
  1 < size (vec_ (new_init [10; 20; 30])) /\
  exists old s',
    [10; 20; 30] !! 1 = Some old /\
    (update_if_exists 1 7;; update_if_exists 1 8) (new_init [10; 20; 30])
      = Return true s' /\
    elems (vec_ s') = <[1:=8]> [10; 20; 30] /\
    signal_emitter s' = [] ++ [Updated 1 old 7; Updated 1 7 8].
Proof.
  split; [cbn; lia|].
  refine (update_twice_reports_the_first_value
            (new_init [10; 20; 30]) 1 7 8 _).
  cbn; lia.
Defined.

Lemma update_same_value_witness :
  [10; 20; 30] !! 1 = Some 20 /\
  exists s',
    update_if_exists 1 20 (new_init [10; 20; 30]) = Return true s' /\
    vec_ s' = vec_ (new_init [10; 20; 30]) /\
    signal_emitter s' = [] ++ [Updated 1 20 20].
Proof.
  split; [reflexivity|].
  refine (update_with_the_same_value_still_emits
            (new_init [10; 20; 30]) 1 20 _).
  reflexivity.
Defined.

Lemma signal_describes_change_witness :
  call (fun n : nat => n) PopBack (new_init [10; 20; 30])
    = Return tt (RV [Erased 2 30] (Vec [10; 20] 3)) /\
  [Erased 2 30] = [] ++ [Erased 2 30] /\
  [10; 20; 30] !! 2 = Some 30 /\
  [10; 20] = delete 2 [10; 20; 30].
Proof.
  split; [reflexivity|]. split; [reflexivity|].
  refine (every_signal_describes_its_change (fun n : nat => n) PopBack
            (new_init [10; 20; 30]) (RV [Erased 2 30] (Vec [10; 20] 3))
            (Erased 2 30) _ _); reflexivity.
Defined.

Lemma calls_append_witness :
  calls (fun n : nat => n) [PushBack (Outside 1); PopBack; Clear] new_default
    = Return tt (RV [Inserted 0 1; Erased 0 1] (Vec [] 1)) /\
  exists new,
    [Inserted 0 1; Erased 0 1] = [] ++ new /\ length new <= 3.
Proof.
  split; [reflexivity|].
  refine (calls_append_at_most_one_signal_each (fun n : nat => n)
            [PushBack (Outside 1); PopBack; Clear] new_default
            (RV [Inserted 0 1; Erased 0 1] (Vec [] 1)) _).
  reflexivity.
Defined.

Lemma calls_without_signal_witness :
  calls (fun n : nat => n) [Reserve 2; Resize 3 0; UpdateIfExists 3 7]
        (new_init [10; 20; 30])
    = Return tt (new_init [10; 20; 30]) /\
  signal_emitter (new_init [10; 20; 30])
    = signal_emitter (new_init [10; 20; 30]) /\
  new_init [10; 20; 30] = new_init [10; 20; 30].
Proof.
  split; [reflexivity|]. split; [reflexivity|].
  refine (calls_without_signal_change_nothing (fun n : nat => n)
            [Reserve 2; Resize 3 0; UpdateIfExists 3 7]
            (new_init [10; 20; 30]) (new_init [10; 20; 30]) _ _);
    reflexivity.
Defined.

Lemma calls_capacity_witness :
  calls (fun n : nat => n)
        [PushBack (Outside 1); PushBack (Outside 2); PushBack (Outside 3);
         Clear]
        new_default
    = Return tt (RV [Inserted 0 1; Inserted 1 2; Inserted 2 3; Cleared]
                    (Vec [] 4)) /\
  capacity (vec_ (new_default (T := nat))) <= 4.
Proof.
  split; [reflexivity|].
  refine (calls_never_shrink_capacity (fun n : nat => n)
            [PushBack (Outside 1); PushBack (Outside 2);
             PushBack (Outside 3); Clear] new_default
            (RV [Inserted 0 1; Inserted 1 2; Inserted 2 3; Cleared]
                (Vec [] 4)) _).
  reflexivity.
Defined.

Lemma erase_last_witness :
  0 < size (vec_ (new_init [10; 20; 30])) /\
  exists s',
    pop_back (new_init [10; 20; 30]) = Return tt s' /\
    erase (3 - 1) (new_init [10; 20; 30]) = Return (3 - 1) s' /\
    rv_end s' = Return (3 - 1) s'.
Proof.
  split; [cbn; lia|].
  refine (erase_of_the_last_element_is_pop_back (new_init [10; 20; 30]) _).
  cbn; lia.
Defined.

Lemma resize_to_zero_witness :
  0 < size (vec_ (new_init [10; 20; 30])) /\
  exists s1 s2,
    resize 0 0 (new_init [10; 20; 30]) = Return tt s1 /\
    clear (new_init [10; 20; 30]) = Return tt s2 /\
    vec_ s1 = vec_ s2 /\
    signal_emitter s1 = [] ++ [Resized 3 0] /\
    signal_emitter s2 = [] ++ [Cleared].
Proof.
  split; [cbn; lia|].
  refine (resize_to_zero_is_not_reported_as_clear
            (new_init [10; 20; 30]) 0 _).
  cbn; lia.
Defined.

Lemma resized_fill_witness :
  size (vec_ (new_init [10; 20; 30])) < 4 /\
  exceeds_max_size 4 = false /\
  7 <> 8 /\
  exists s1 s2,
    resize 4 7 (new_init [10; 20; 30]) = Return tt s1 /\
    resize 4 8 (new_init [10; 20; 30]) = Return tt s2 /\
    signal_emitter s1 = signal_emitter s2 /\
    elems (vec_ s1) <> elems (vec_ s2).
Proof.
  split; [cbn; lia|]. split; [reflexivity|]. split; [lia|].
  refine (resized_does_not_carry_the_fill_value
            (new_init [10; 20; 30]) 4 7 8 _ _ _);
    [cbn; lia|reflexivity|lia].
Defined.

Lemma push_back_then_pop_back_witness :
  load (Element 0) (vec_ (new_init [10; 20; 30])) = Ok 10 /\
  exists s' sig,
    (push_back (Element 0);; pop_back) (new_init [10; 20; 30])
      = Return tt s' /\
    elems (vec_ s') = [10; 20; 30] /\
    signal_emitter s' = [] ++ [sig; Erased 3 10].
Proof.
  split; [reflexivity|].
  destruct (push_back_then_pop_back_restores_elements
              (new_init [10; 20; 30]) (Element 0) 10)
    as (s' & sig & Hrun & Hel & _ & Hlog & _); [reflexivity|].
  exists s', sig. repeat split; assumption.
Defined.

Lemma resize_idempotent_witness :
  (size (vec_ (new_init [10; 20; 30])) < 5 -> exceeds_max_size 5 = false) /\
  exists s',
    resize 5 7 (new_init [10; 20; 30]) = Return tt s' /\
    size (vec_ s') = 5 /\
    (forall g, resize 5 g s' = Return tt s').
Proof.
  split; [reflexivity|].
  destruct (resize_sets_the_size_and_is_idempotent
              (new_init [10; 20; 30]) 5 7)
    as (s' & Hrun & Hsz & _ & _ & _ & Hagain); [reflexivity|].
  exists s'. repeat split; assumption.
Defined.

Lemma push_back_capacity_witness :
  load (Outside 40) (vec_ (new_init [10; 20; 30])) = Ok 40 /\
  exists s' sig,
    push_back (Outside 40) (new_init [10; 20; 30]) = Return tt s' /\
    signal_emitter s' = [] ++ [sig] /\
    (3 <= 3 -> 3 < capacity (vec_ s')).
Proof.
  split; [reflexivity|].
  destruct (push_back_grows_capacity_unreported
              (new_init [10; 20; 30]) (Outside 40) 40)
    as (s' & sig & Hrun & Hlog & _ & _ & Hfull); [reflexivity|].
  exists s', sig. repeat split; assumption.
Defined.

Lemma guards_witness :
  (forall i, PopBack <> PushBack (Args := nat) (Element (T := nat) i)) /\
  (forall e s',
     call (fun n : nat => n) PopBack new_default <> Throw e s') /\
  call (fun n : nat => n) PopBack new_default <> Undefined.
Proof.
  assert (Hnot : forall i,
            PopBack <> PushBack (Args := nat) (Element (T := nat) i))
    by discriminate.
  destruct (only_erase_past_the_end_is_undefined (fun n : nat => n)
              PopBack new_default Hnot) as (Hthrow & Hub & _).
  split; [exact Hnot|]. split.
  - intros e s' Hcall. destruct (Hthrow e s' Hcall) as (_ & _ & Hwhy).
    destruct Hwhy as [(n & Hop & _) | (n & f & Hop & _)]; discriminate.
  - intros Hcall. apply Hub in Hcall as (pos & Hop & _). discriminate.
Defined.

Lemma push_back_after_reserve_witness :
  exceeds_max_size 10 = false /\
  exists s1,
    reserve 10 (new_init [10; 20; 30]) = Return tt s1 /\
    (3 < 10 ->
     exists s2,
       push_back (Outside 40) s1 = Return tt s2 /\
       capacity (vec_ s2) = capacity (vec_ s1)).
Proof.
  split; [reflexivity|].
  refine (push_back_after_reserve_keeps_capacity
            (new_init [10; 20; 30]) 10 40 _).
  reflexivity.
Defined.

Lemma reserve_absorbs_witness :
  exceeds_max_size 100 = false /\
  exists s',
    reserve 100 (new_default (T := nat)) = Return tt s' /\
    (forall m, m <= 100 -> reserve m s' = Return tt s').
Proof.
  split; [reflexivity|].
  refine (proj1 (reserve_absorbs_smaller_requests new_default 100) _).
  reflexivity.
Defined.

